(** * Blockly inputs and the workspace grid: a shallow embedding

    This development embeds two source files of the block editor:

    - [core/input.ts]: the class [Input], an ordered row of fields plus
      an optional connection, owned by a block;
    - the workspace grid (class [Grid]), an SVG pattern whose tile and
      lines are recomputed from a spacing, a line length and a scale.

    JavaScript objects live in a store indexed by references, so that a
    field reached twice (from the row and from another field's
    [prefixField]) is one object.  Calls into collaborators whose code is
    not part of the two files (fields, connections, blocks, the DOM) are
    recorded, in program order, in a trace of events.  A method is a
    computation over the receiver and the store that either returns,
    throws, or leaves the embedded fragment. *)

From Stdlib Require Import ZArith List String Bool Lia Floats.
From stdpp Require Import base option list gmap strings.

Local Open Scope Z_scope.

(** ** Values shared by the two classes *)

(** An object reference. *)
Definition ref := positive.

(** A property that holds an object, [null], or was never assigned. *)
Inductive jsref :=
| JUndefined
| JNull
| JObj (r : ref).

Global Instance jsref_eq_dec : EqDecision jsref.
Proof. solve_decision. Defined.

(** What callers pass as the [field] argument of [insertFieldAt], and
    what a field may declare as [prefixField] / [suffixField]: nothing,
    [null], a plain text, or a field object. *)
Inductive FieldArg :=
| AUndefined
| ANull
| AString (s : string)
| AField (r : ref).

(** JavaScript truthiness of such a value: the empty string, [null] and
    [undefined] are falsy, objects and other strings are truthy. *)
Definition truthy (a : FieldArg) : bool :=
  match a with
  | AUndefined | ANull => false
  | AString s => bool_decide (s ≠ EmptyString)
  | AField _ => true
  end.

(** Truthiness of the optional [opt_name] argument. *)
Definition truthy_name (o : option string) : bool :=
  match o with
  | None => false
  | Some s => bool_decide (s ≠ EmptyString)
  end.

(** Modelled from the spec: the enumeration [ConnectionType] is declared
    in [./constants], which is not among the sources; the three input
    kinds are the ones the data model lists. *)
Inductive ConnectionType :=
| ValueInput
| StatementInput
| DummyInput.

Global Instance ConnectionType_eq_dec : EqDecision ConnectionType.
Proof. solve_decision. Defined.

(** Modelled from the spec: the alignment constants [Blockly.ALIGN_LEFT],
    [ALIGN_CENTRE], [ALIGN_RIGHT] are declared outside the sources. *)
Inductive Align :=
| ALIGN_LEFT
| ALIGN_CENTRE
| ALIGN_RIGHT.

(** The argument of [setCheck]: [null], one type, or a list of types. *)
Inductive Check :=
| CheckNull
| CheckString (s : string)
| CheckArray (l : list string).

Global Instance Check_eq_dec : EqDecision Check.
Proof. solve_decision. Defined.

(** ** Collaborators *)

Module Field.
(** The properties of a field that [Input] reads or writes directly:
    [name] (undefined when [None]), [prefixField], [suffixField]; and
    the text a label was built from. *)
Record t := mk {
  name : option string;
  prefixField : FieldArg;
  suffixField : FieldArg;
  text_ : string
}.

Definition set_name (n : option string) (f : t) : t :=
  mk n (prefixField f) (suffixField f) (text_ f).
End Field.

(** Modelled from the spec: [Blockly.FieldLabel] is not among the
    sources; a plain string is converted to a read-only label field,
    which has no name yet and declares no prefix or suffix. *)
Definition FieldLabel (text : string) : Field.t :=
  Field.mk None AUndefined AUndefined text.

Module Block.
(** [rendered]: the block is attached to a rendering surface;
    [display]: the [style.display] of the element [getSvgRoot()]
    returns. *)
Record t := mk {
  rendered : bool;
  display : string
}.

Definition set_rendered (r : bool) (b : t) : t := mk r (display b).
Definition set_display (d : string) (b : t) : t := mk (rendered b) d.
End Block.

Module Connection.
(** Modelled from the spec: the class [Connection] is not among the
    sources.  [check_] is the accepted-type set, [targetBlock] the
    block on the other end of the link or none, and [unhidden] the
    list of blocks [unhideAll()] reports as needing a re-render. *)
Record t := mk {
  check_ : Check;
  targetBlock : option ref;
  unhidden : list ref
}.

Definition set_check (c : Check) (k : t) : t :=
  mk c (targetBlock k) (unhidden k).
End Connection.

(** Calls into the collaborators, as the sources make them. *)
Inductive Event :=
| RemoveNode (el : ref)                       (* goog.dom.removeNode(el) *)
| FieldSetSourceBlock (f : ref) (b : jsref)   (* f.setSourceBlock(b) *)
| FieldInit (f : ref)                         (* f.init() *)
| FieldSetVisible (f : ref) (v : bool)        (* f.setVisible(v) *)
| FieldDispose (f : ref)                      (* f.dispose() *)
| ConnSetCheck (c : ref) (check : Check)      (* c.setCheck(check) *)
| ConnHideAll (c : ref)                       (* c.hideAll() *)
| ConnUnhideAll (c : ref)                     (* c.unhideAll() *)
| ConnDispose (c : ref)                       (* c.dispose() *)
| BlockRender (b : ref)                       (* b.render() *)
| BlockBumpNeighbours (b : ref).              (* b.bumpNeighbours_() *)

Global Instance Event_eq_dec : EqDecision Event.
Proof. solve_decision. Defined.

(** The store: one heap per class of object, and the trace. *)
Record World := mkWorld {
  fields : gmap ref Field.t;
  blocks : gmap ref Block.t;
  connections : gmap ref Connection.t;
  trace : list Event
}.

Definition set_fields (f : gmap ref Field.t) (w : World) : World :=
  mkWorld f (blocks w) (connections w) (trace w).
Definition set_blocks (b : gmap ref Block.t) (w : World) : World :=
  mkWorld (fields w) b (connections w) (trace w).
Definition set_connections (c : gmap ref Connection.t) (w : World) : World :=
  mkWorld (fields w) (blocks w) c (trace w).
Definition log (e : Event) (w : World) : World :=
  mkWorld (fields w) (blocks w) (connections w) (trace w ++ [e]).

(** What a method throws. *)
Inductive exn :=
| EmptyName                  (* throw 'Value inputs and statement inputs must have non-empty name.' *)
| IndexOutOfBounds (index : Z) (* throw new Error('index ' + index + ' out of bounds.') *)
| FieldNotFound (name : string) (* goog.asserts.fail('Field "%s" not found.', name) *)
| NoConnection               (* throw 'This input does not have a connection.' *)
| TypeError.                 (* a property read or a call on null or undefined *)

Inductive completion (A : Type) :=
| Return (a : A)
| Throw (e : exn).
Arguments Return {A} a.
Arguments Throw {A} e.

(** [Array.prototype.splice(start, 0, x)]: a start beyond the end is
    clamped to the length, a negative one counts from the end. *)
Definition splice_insert {A} (l : list A) (start : Z) (x : A) : list A :=
  let n := Z.of_nat (length l) in
  let k := if start <? 0 then Z.max (n + start) 0 else Z.min start n in
  take (Z.to_nat k) l ++ x :: drop (Z.to_nat k) l.

(** ** The class [Input] *)

Module Input.

Record t := mk {
  type : ConnectionType;
  name : string;
  sourceBlock : ref;          (* assigned by the constructor *)
  sourceBlock_ : jsref;       (* read by the methods, cleared by dispose *)
  connection : option ref;
  fieldRow : list ref;
  outlinePath : option ref;
  align : Align;
  visible_ : bool
}.

Definition set_sourceBlock_ (b : jsref) (i : t) : t :=
  mk (type i) (name i) (sourceBlock i) b (connection i) (fieldRow i)
     (outlinePath i) (align i) (visible_ i).
Definition set_fieldRow (r : list ref) (i : t) : t :=
  mk (type i) (name i) (sourceBlock i) (sourceBlock_ i) (connection i) r
     (outlinePath i) (align i) (visible_ i).
Definition set_align (a : Align) (i : t) : t :=
  mk (type i) (name i) (sourceBlock i) (sourceBlock_ i) (connection i)
     (fieldRow i) (outlinePath i) a (visible_ i).
Definition set_visible_ (v : bool) (i : t) : t :=
  mk (type i) (name i) (sourceBlock i) (sourceBlock_ i) (connection i)
     (fieldRow i) (outlinePath i) (align i) v.

(** The constructor.  The parameter property it declares is
    [sourceBlock]; it leaves [sourceBlock_] unassigned. *)
Definition new (type : ConnectionType) (name : string) (block : ref)
    (connection : option ref) : completion t :=
  if bool_decide (type ≠ DummyInput) && negb (bool_decide (name ≠ EmptyString))
  then Throw EmptyName
  else Return (mk type name block JUndefined connection [] None ALIGN_LEFT true).

(** *** Computations over the receiver and the store

    [None] means that the run left the embedded fragment: the fuel of
    a recursive method ran out, a reference has no object in the
    store, or a value was used in a way the sources never do. *)
Definition St : Type := t * World.
Definition M (A : Type) : Type := St -> option (completion A * St).

Definition ret {A} (a : A) : M A := fun s => Some (Return a, s).
Definition throw {A} (e : exn) : M A := fun s => Some (Throw e, s).
Definition stuck {A} : M A := fun _ => None.
Definition bind {A B} (m : M A) (k : A -> M B) : M B :=
  fun s =>
    match m s with
    | None => None
    | Some (Return a, s') => k a s'
    | Some (Throw e, s') => Some (Throw e, s')
    end.

Declare Scope js_scope.
Delimit Scope js_scope with js.
Notation "x <- m ;; k" := (bind m (fun x => k))
  (at level 100, m at next level, right associativity) : js_scope.
Notation "m ;; k" := (bind m (fun _ => k))
  (at level 100, right associativity) : js_scope.
Local Open Scope js_scope.

Definition this : M t := fun s => Some (Return (fst s), s).
Definition world : M World := fun s => Some (Return (snd s), s).
Definition setThis (f : t -> t) : M unit :=
  fun s => Some (Return tt, (f (fst s), snd s)).
Definition setWorld (f : World -> World) : M unit :=
  fun s => Some (Return tt, (fst s, f (snd s))).
Definition emit (e : Event) : M unit := setWorld (log e).
Definition when (b : bool) (m : M unit) : M unit := if b then m else ret tt.

Definition fromStore {A} (o : option A) : M A :=
  match o with Some a => ret a | None => stuck end.
Definition getField (f : ref) : M Field.t :=
  w <- world;; fromStore (fields w !! f).
Definition getBlock (b : ref) : M Block.t :=
  w <- world;; fromStore (blocks w !! b).
Definition getConnection (c : ref) : M Connection.t :=
  w <- world;; fromStore (connections w !! c).

(** [this.sourceBlock_], dereferenced. *)
Definition theSourceBlock : M ref :=
  i <- this;;
  match sourceBlock_ i with
  | JObj b => ret b
  | JUndefined | JNull => throw TypeError
  end.

(** [this.sourceBlock_.rendered] *)
Definition sourceBlockRendered : M bool :=
  b <- theSourceBlock;; o <- getBlock b;; ret (Block.rendered o).

(** [if (this.sourceBlock_.rendered) { this.sourceBlock_.render();
    this.sourceBlock_.bumpNeighbours_(); }] *)
Definition renderAndBump : M unit :=
  r <- sourceBlockRendered;;
  when r (b <- theSourceBlock;; emit (BlockRender b);;
          b <- theSourceBlock;; emit (BlockBumpNeighbours b)).

(** [if (goog.isString(field)) field = new Blockly.FieldLabel(field)];
    the new label takes a reference the store does not use yet.  A
    [null] or [undefined] that reaches this point makes the next
    statement, [field.setSourceBlock(...)], throw. *)
Definition toField (field : FieldArg) : M ref :=
  match field with
  | AString s =>
      w <- world;;
      let r := fresh (dom (fields w)) in
      setWorld (set_fields (<[r := FieldLabel s]> (fields w)));;
      ret r
  | AField r => ret r
  | AUndefined | ANull => throw TypeError
  end.

(** [field.name = opt_name] *)
Definition setFieldName (f : ref) (n : option string) : M unit :=
  o <- getField f;;
  setWorld (fun w => set_fields (<[f := Field.set_name n o]> (fields w)) w).

(** What [insertFieldAt] returns: the receiver or a row index. *)
Inductive Ret :=
| RetThis
| RetIndex (index : Z).

(** [index = this.insertFieldAt(...)] followed by uses of [index] as a
    number.  The recursive calls pass a truthy field, so they return a
    number; the coercion of an object to an index is not embedded. *)
Definition asIndex (v : Ret) : M Z :=
  match v with
  | RetIndex n => ret n
  | RetThis => stuck
  end.

Fixpoint insertFieldAt (fuel : nat) (index : Z) (field : FieldArg)
    (opt_name : option string) : M Ret :=
  match fuel with
  | O => stuck
  | S fuel =>
      i <- this;;
      if (index <? 0) || (index >? Z.of_nat (length (fieldRow i)))
      then throw (IndexOutOfBounds index)
      else if negb (truthy field) && negb (truthy_name opt_name)
      then ret RetThis
      else
        field <- toField field;;
        i <- this;;
        emit (FieldSetSourceBlock field (sourceBlock_ i));;
        r <- sourceBlockRendered;;
        when r (emit (FieldInit field));;
        setFieldName field opt_name;;
        o <- getField field;;
        index <- (if truthy (Field.prefixField o)
                  then v <- insertFieldAt fuel index (Field.prefixField o) None;;
                       asIndex v
                  else ret index);;
        setThis (fun i => set_fieldRow (splice_insert (fieldRow i) index field) i);;
        let index := index + 1 in
        o <- getField field;;
        index <- (if truthy (Field.suffixField o)
                  then v <- insertFieldAt fuel index (Field.suffixField o) None;;
                       asIndex v
                  else ret index);;
        renderAndBump;;
        ret (RetIndex index)
  end.

Definition appendField (fuel : nat) (field : FieldArg)
    (opt_name : option string) : M Ret :=
  i <- this;;
  insertFieldAt fuel (Z.of_nat (length (fieldRow i))) field opt_name;;
  ret RetThis.

(** The loop of [removeField], from position [i] on; [rest] is the
    part of the row not yet inspected.  The row is not modified while
    the search runs, and every entry is an object, so the loop
    condition [field = this.fieldRow[i]] fails only at the end. *)
Fixpoint removeField_from (name : string) (i : nat) (rest : list ref) : M unit :=
  match rest with
  | [] => throw (FieldNotFound name)
  | field :: rest =>
      o <- getField field;;
      if bool_decide (Field.name o = Some name)
      then
        emit (FieldDispose field);;
        setThis (fun t => set_fieldRow (delete i (fieldRow t)) t);;
        renderAndBump
      else removeField_from name (S i) rest
  end.

Definition removeField (name : string) : M unit :=
  i <- this;; removeField_from name 0 (fieldRow i).

Definition isVisible : M bool := i <- this;; ret (visible_ i).

(** [for (...; field = this.fieldRow[y]; y++) field.setVisible(visible)] *)
Fixpoint setVisible_fields (visible : bool) (row : list ref) : M unit :=
  match row with
  | [] => ret tt
  | field :: row => emit (FieldSetVisible field visible);; setVisible_fields visible row
  end.

Definition setVisible (visible : bool) : M (list ref) :=
  i <- this;;
  if Bool.eqb (visible_ i) visible then ret []
  else
    setThis (set_visible_ visible);;
    let display := if visible then "block"%string else "none"%string in
    i <- this;;
    setVisible_fields visible (fieldRow i);;
    i <- this;;
    match connection i with
    | None => ret []
    | Some c =>
        renderList <-
          (if visible
           then emit (ConnUnhideAll c);; k <- getConnection c;; ret (Connection.unhidden k)
           else emit (ConnHideAll c);; ret []);;
        k <- getConnection c;;
        match Connection.targetBlock k with
        | None => ret renderList
        | Some child =>
            o <- getBlock child;;
            setWorld (fun w => set_blocks (<[child := Block.set_display display o]> (blocks w)) w);;
            (if negb visible
             then o <- getBlock child;;
                  setWorld (fun w => set_blocks (<[child := Block.set_rendered false o]> (blocks w)) w)
             else ret tt);;
            ret renderList
        end
    end.

Definition setCheck (check : Check) : M Ret :=
  i <- this;;
  match connection i with
  | None => throw NoConnection
  | Some c =>
      emit (ConnSetCheck c check);;
      k <- getConnection c;;
      setWorld (fun w => set_connections (<[c := Connection.set_check check k]> (connections w)) w);;
      ret RetThis
  end.

Definition setAlign (a : Align) : M Ret :=
  setThis (set_align a);;
  r <- sourceBlockRendered;;
  when r (b <- theSourceBlock;; emit (BlockRender b));;
  ret RetThis.

(** [for (...; field = this.fieldRow[i]; i++) field.dispose()] *)
Fixpoint dispose_fields (row : list ref) : M unit :=
  match row with
  | [] => ret tt
  | field :: row => emit (FieldDispose field);; dispose_fields row
  end.

Definition dispose : M unit :=
  i <- this;;
  match outlinePath i with
  | Some el => emit (RemoveNode el)
  | None => ret tt
  end;;
  i <- this;;
  dispose_fields (fieldRow i);;
  i <- this;;
  match connection i with
  | Some c => emit (ConnDispose c)
  | None => ret tt
  end;;
  setThis (set_sourceBlock_ JNull).

End Input.


(** ** The class [Grid] *)

(** JavaScript numbers are IEEE 754 doubles: the kernel's [float]. *)

(** Truthiness of a number: [0], [-0] and [NaN] are falsy. *)
Definition truthy_number (x : float) : bool :=
  negb (PrimFloat.is_zero x || PrimFloat.is_nan x).

(** [Math.floor]: a finite double with a negative exponent is cut at
    the binary point, rounding towards minus infinity; every other
    double is its own floor. *)
Definition Math_floor (x : float) : float :=
  match Prim2SF x with
  | S754_finite s m e =>
      if 0 <=? e then x
      else
        let z := Z.shiftr (cond_Zopp s (Zpos m)) (- e) in
        if z =? 0 then PrimFloat.zero
        else SF2Prim (binary_normalize prec emax z 0 false)
  | _ => x
  end.

Module Grid.

(** An SVG element, as far as the grid writes to it: the attributes set
    so far, by name.  The DOM keeps the decimal text of a number; the
    number itself is kept here. *)
Record SVGElement := mkElement {
  id : string;
  attributes : gmap string float
}.

Definition setAttribute (name : string) (value : float) (e : SVGElement) : SVGElement :=
  mkElement (id e) (<[name := value]> (attributes e)).

Record t := mk {
  gridPattern_ : option SVGElement;
  spacing_ : float;
  length_ : float;
  snapToGrid_ : bool;
  line1_ : option SVGElement;
  line2_ : option SVGElement;
  scale_ : float
}.

Definition set_gridPattern_ (p : option SVGElement) (g : t) : t :=
  mk p (spacing_ g) (length_ g) (snapToGrid_ g) (line1_ g) (line2_ g) (scale_ g).
Definition set_line1_ (l : option SVGElement) (g : t) : t :=
  mk (gridPattern_ g) (spacing_ g) (length_ g) (snapToGrid_ g) l (line2_ g) (scale_ g).
Definition set_line2_ (l : option SVGElement) (g : t) : t :=
  mk (gridPattern_ g) (spacing_ g) (length_ g) (snapToGrid_ g) (line1_ g) l (scale_ g).
Definition set_scale_ (s : float) (g : t) : t :=
  mk (gridPattern_ g) (spacing_ g) (length_ g) (snapToGrid_ g) (line1_ g) (line2_ g) s.

Definition dispose (g : t) : t := set_gridPattern_ None g.
Definition shouldSnap (g : t) : bool := snapToGrid_ g.
Definition getSpacing (g : t) : float := spacing_ g.
Definition getPatternId (g : t) : completion string :=
  match gridPattern_ g with
  | Some p => Return (id p)
  | None => Throw TypeError
  end.

(** [setLineAttributes_]: nothing happens when the line is absent. *)
Definition setLineAttributes_ (line : option SVGElement)
    (width x1 x2 y1 y2 : float) : option SVGElement :=
  match line with
  | Some l =>
      Some (setAttribute "y2" y2 (setAttribute "x2" x2 (setAttribute "y1" y1
             (setAttribute "x1" x1 (setAttribute "stroke-width" width l)))))
  | None => None
  end.

(** The three numbers [update] computes for the lines, after scaling. *)
Definition half_of (g : t) (scale : float) : float :=
  ((Math_floor (spacing_ g / 2) + 0.5) * scale)%float.
Definition start_of (g : t) (scale : float) : float :=
  (((Math_floor (spacing_ g / 2) + 0.5) - length_ g / 2) * scale)%float.
Definition end_of (g : t) (scale : float) : float :=
  (((Math_floor (spacing_ g / 2) + 0.5) + length_ g / 2) * scale)%float.

(** [(this.spacing_ * scale) || 100] *)
Definition safeSpacing (g : t) (scale : float) : float :=
  if truthy_number (spacing_ g * scale)%float then (spacing_ g * scale)%float
  else 100%float.

Definition update (scale : float) (g : t) : completion unit * t :=
  let g := set_scale_ scale g in
  match gridPattern_ g with
  | None => (Throw TypeError, g)
  | Some p =>
      let g := set_gridPattern_
                 (Some (setAttribute "height" (safeSpacing g scale)
                          (setAttribute "width" (safeSpacing g scale) p))) g in
      let half := half_of g scale in
      let start := start_of g scale in
      let end_ := end_of g scale in
      let g := set_line1_ (setLineAttributes_ (line1_ g) scale start end_ half half) g in
      let g := set_line2_ (setLineAttributes_ (line2_ g) scale half half start end_) g in
      (Return tt, g)
  end.

(** [moveTo]; [ie] stands for [goog.userAgent.IE || goog.userAgent.EDGE]. *)
Definition moveTo (ie : bool) (x y : float) (g : t) : completion unit * t :=
  match gridPattern_ g with
  | None => (Throw TypeError, g)
  | Some p =>
      let g := set_gridPattern_ (Some (setAttribute "y" y (setAttribute "x" x p))) g in
      if ie then update (scale_ g) g else (Return tt, g)
  end.

End Grid.

(** * Vocabulary of the statements *)

Module InputSpec.
Import Input.

(** Appending a batch of events at once. *)
Definition logs (es : list Event) (w : World) : World :=
  mkWorld (fields w) (blocks w) (connections w) (trace w ++ es).

(** The events of [if (rendered) { render(); bumpNeighbours_(); }] on
    block [b] whose object is [o]. *)
Definition render_events (b : ref) (o : Block.t) : list Event :=
  if Block.rendered o then [BlockRender b; BlockBumpNeighbours b] else [].

(** The events of one call of [dispose]. *)
Definition dispose_events (inp : Input.t) : list Event :=
  match outlinePath inp with Some el => [RemoveNode el] | None => [] end
  ++ map FieldDispose (fieldRow inp)
  ++ match connection inp with Some c => [ConnDispose c] | None => [] end.

(** The claim about [dispose] as it is worded, at one receiver and
    store. *)
Definition dispose_clears_all (inp : Input.t) (w : World) : Prop :=
  forall inp' w',
    dispose (inp, w) = Some (Return tt, (inp', w')) ->
    fieldRow inp' = [] /\ connection inp' = None /\ sourceBlock_ inp' = JNull.

(** Field [f] of the store carries the name [n]. *)
Definition named (w : World) (n : string) (f : ref) : Prop :=
  exists o, fields w !! f = Some o /\ Field.name o = Some n.

(** Field [f] is in the store under another name, or under none. *)
Definition not_named (w : World) (n : string) (f : ref) : Prop :=
  exists o, fields w !! f = Some o /\ Field.name o <> Some n.

(** Field [f] is in the store and its name is undefined. *)
Definition unnamed (w : World) (f : ref) : Prop :=
  exists o, fields w !! f = Some o /\ Field.name o = None.

(** *** Nested insertion

    [nests w d a]: every object reached from [a] through [prefixField]
    and [suffixField] links is in the store, and at most [d] calls of
    [insertFieldAt] are stacked while [a] is inserted. *)
Fixpoint nests (w : World) (d : nat) (a : FieldArg) : bool :=
  match d with
  | O => false
  | S d =>
      match a with
      | AField r =>
          match fields w !! r with
          | Some o =>
              (negb (truthy (Field.prefixField o)) || nests w d (Field.prefixField o))
              && (negb (truthy (Field.suffixField o)) || nests w d (Field.suffixField o))
          | None => false
          end
      | _ => true
      end
  end.

(** How the field heap may differ after an insertion with name
    argument [nm]: no object disappears, no object changes what it
    declares as prefix, suffix or text, and a name is what it was, or
    [nm], or undefined.  The blocks are untouched. *)
Definition evolves (nm : option string) (w w' : World) : Prop :=
  blocks w' = blocks w
  /\ forall r o, fields w !! r = Some o ->
       exists o', fields w' !! r = Some o'
                  /\ Field.prefixField o' = Field.prefixField o
                  /\ Field.suffixField o' = Field.suffixField o
                  /\ Field.text_ o' = Field.text_ o
                  /\ (Field.name o' = Field.name o \/ Field.name o' = nm
                      \/ Field.name o' = None).

(** The row entry [r], with object [o], is the field that the value
    [a] denotes: the object itself, or the label made from the text. *)
Definition stands_for (a : FieldArg) (r : ref) (o : Field.t) : Prop :=
  match a with
  | AField r' => r = r'
  | AString s =>
      Field.text_ o = s /\ Field.prefixField o = AUndefined
      /\ Field.suffixField o = AUndefined
  | AUndefined | ANull => False
  end.

(** [expands w d a new]: [new] is the run of row entries that
    inserting [a] produces: what its prefix expands to, then the field
    itself, then what its suffix expands to. *)
Fixpoint expands (w : World) (d : nat) (a : FieldArg) (new : list ref) : Prop :=
  match d with
  | O => False
  | S d =>
      exists r o pre suf,
        new = pre ++ r :: suf
        /\ fields w !! r = Some o
        /\ stands_for a r o
        /\ (if truthy (Field.prefixField o)
            then expands w d (Field.prefixField o) pre else pre = [])
        /\ (if truthy (Field.suffixField o)
            then expands w d (Field.suffixField o) suf else suf = [])
  end.

(** [if (p) index = this.insertFieldAt(index, p)], for [p] a declared
    prefix or suffix. *)
Definition insert_nested (fuel : nat) (index : Z) (p : FieldArg) : M Z :=
  (if truthy p
   then v <- insertFieldAt fuel index p None;; asIndex v
   else ret index)%js.

(** The body of [insertFieldAt] from [field.setSourceBlock] on, once
    [field] is an object. *)
Definition insert_resolved (fuel : nat) (index : Z) (field : ref)
    (opt_name : option string) : M Ret :=
  (i <- this;;
   emit (FieldSetSourceBlock field (sourceBlock_ i));;
   r <- sourceBlockRendered;;
   when r (emit (FieldInit field));;
   setFieldName field opt_name;;
   o <- getField field;;
   index <- insert_nested fuel index (Field.prefixField o);;
   setThis (fun i => set_fieldRow (splice_insert (fieldRow i) index field) i);;
   let index := index + 1 in
   o <- getField field;;
   index <- insert_nested fuel index (Field.suffixField o);;
   renderAndBump;;
   ret (RetIndex index))%js.

(** The objects reached from [a] within [k] levels of prefix and
    suffix declarations. *)
Fixpoint reach (w : World) (k : nat) (a : FieldArg) : list ref :=
  match k with
  | O => []
  | S k =>
      match a with
      | AField r =>
          match fields w !! r with
          | Some o =>
              r :: reach w k (Field.prefixField o) ++ reach w k (Field.suffixField o)
          | None => []
          end
      | _ => []
      end
  end.

(** The state after a call that inserted [a] under the name [nm]: the
    row gained [pre], the entry [r] for [a] itself, and [suf].  The
    entry carries the name [nm]; [pre] and [suf] are what the prefix and
    the suffix of [r] expand to, all with undefined names; the objects
    that are not among the new entries are untouched; and the new
    entries are either reached from [a] or new in the store. *)
Definition inserted (d : nat) (nm : option string) (w : World) (a : FieldArg)
    (pre : list ref) (r : ref) (suf : list ref) (w' : World) : Prop :=
  evolves nm w w'
  /\ (exists o',
        fields w' !! r = Some o' /\ stands_for a r o' /\ Field.name o' = nm
        /\ (if truthy (Field.prefixField o')
            then expands w' (pred d) (Field.prefixField o') pre else pre = [])
        /\ (if truthy (Field.suffixField o')
            then expands w' (pred d) (Field.suffixField o') suf else suf = []))
  /\ Forall (unnamed w') pre /\ Forall (unnamed w') suf
  /\ (forall x ox, fields w !! x = Some ox -> x ∉ pre ++ r :: suf ->
                   fields w' !! x = Some ox)
  /\ (forall x, x ∈ pre ++ r :: suf -> x ∈ reach w d a \/ fields w !! x = None).

(** The names after a call that inserted the field object [f], whose
    object before the call was [o], under the name [nm], the row having
    gained [pre] before [f] and [suf] after it: [f] carries [nm];
    [pre] and [suf] are what the declared prefix and suffix of [f]
    expand to, so a declared prefix or suffix object is among them;
    and every entry of [pre] and [suf] has an undefined name. *)
Definition names_assigned (d : nat) (nm : option string) (o : Field.t) (f : ref)
    (pre suf : list ref) (w' : World) : Prop :=
  (exists o', fields w' !! f = Some o' /\ Field.name o' = nm)
  /\ (if truthy (Field.prefixField o)
      then expands w' (pred d) (Field.prefixField o) pre else pre = [])
  /\ (if truthy (Field.suffixField o)
      then expands w' (pred d) (Field.suffixField o) suf else suf = [])
  /\ (forall p, Field.prefixField o = AField p -> p ∈ pre)
  /\ (forall q, Field.suffixField o = AField q -> q ∈ suf)
  /\ Forall (unnamed w') pre /\ Forall (unnamed w') suf
  /\ (nm = None -> Forall (unnamed w') (pre ++ f :: suf)).

(** What a call of [insertFieldAt] with a truthy field achieves when
    the receiver has a block, the index splits the row into [l1] and
    [l2], and [d] bounds the nesting. *)
Definition inserts (d fuel : nat) : Prop :=
  forall inp w l1 l2 a nm b bo,
    sourceBlock_ inp = JObj b -> blocks w !! b = Some bo ->
    fieldRow inp = l1 ++ l2 ->
    truthy a = true -> nests w d a = true ->
    exists pre r suf w',
      insertFieldAt fuel (Z.of_nat (length l1)) a nm (inp, w)
      = Some (Return (RetIndex (Z.of_nat (length (l1 ++ pre ++ r :: suf)))),
              (set_fieldRow (l1 ++ (pre ++ r :: suf) ++ l2) inp, w'))
      /\ inserted d nm w a pre r suf w'.

(** Sample objects for the closed statements. *)
Definition sample_block : Block.t := Block.mk false "block".
Definition sample_connection : Connection.t := Connection.mk CheckNull None [].
Definition sample_world : World :=
  mkWorld {[ 1%positive := Field.mk (Some "NUM"%string) AUndefined AUndefined "0" ]}
          {[ 1%positive := sample_block ]}
          {[ 1%positive := sample_connection ]}
          [].
Definition sample_input : Input.t :=
  Input.mk ValueInput "A" 1%positive (JObj 1%positive) (Some 1%positive)
           [1%positive] None ALIGN_LEFT true.
Definition empty_input : Input.t :=
  Input.mk DummyInput "" 1%positive (JObj 1%positive) None [] None ALIGN_LEFT true.

(** A store with a dropdown-like field [1] that declares the field [2]
    as its prefix and the text [px] as its suffix, and a row that holds
    the field [3]. *)
Definition nested_world : World :=
  mkWorld
    (<[1%positive := Field.mk (Some "UNIT"%string) (AField 2%positive) (AString "px") "10"]>
     (<[2%positive := Field.mk (Some "LABEL"%string) AUndefined AUndefined "width"]>
      {[ 3%positive := Field.mk None AUndefined AUndefined "set" ]}))
    {[ 1%positive := Block.mk true "block" ]}
    ∅
    [].
Definition nested_input : Input.t :=
  Input.mk DummyInput "" 1%positive (JObj 1%positive) None
           [3%positive] None ALIGN_LEFT true.

(** A visible input whose connection is linked to the rendered block
    [2]. *)
Definition linked_connection : Connection.t :=
  Connection.mk CheckNull (Some 2%positive) [2%positive].
Definition linked_world : World :=
  mkWorld {[ 1%positive := Field.mk (Some "NUM"%string) AUndefined AUndefined "0" ]}
          (<[1%positive := Block.mk true "block"]>
           {[ 2%positive := Block.mk true "block" ]})
          {[ 1%positive := linked_connection ]}
          [].

End InputSpec.

Module GridSpec.
Import Grid.

(** Two numbers written as attribute values give the same text: they
    are the same double, or both are zeros (of either sign). *)
Definition coincide (x y : float) : Prop :=
  x = y \/ (PrimFloat.is_zero x = true /\ PrimFloat.is_zero y = true).

(** The claim about the tile as it is worded, at one grid and scale:
    the width and height are [spacing * scale], or 100 when that
    product equals 0. *)
Definition tile_as_worded (g : t) (scale : float) : Prop :=
  forall p, gridPattern_ g = Some p ->
    exists g' p',
      update scale g = (Return tt, g')
      /\ gridPattern_ g' = Some p'
      /\ attributes p' !! "width"%string
         = Some (if PrimFloat.eqb (spacing_ g * scale) 0 then 100%float
                 else (spacing_ g * scale)%float)
      /\ attributes p' !! "height"%string
         = Some (if PrimFloat.eqb (spacing_ g * scale) 0 then 100%float
                 else (spacing_ g * scale)%float).

Definition sample_pattern : SVGElement := mkElement "blocklyGridPattern1" ∅.
Definition sample_line : SVGElement := mkElement "" ∅.

(** A grid of spacing 10 and line length 1. *)
Definition sample_grid : t :=
  mk (Some sample_pattern) 10%float 1%float true (Some sample_line) None 1%float.

(** A grid of spacing 20 whose lines have length 0. *)
Definition pointless_grid : t :=
  mk (Some sample_pattern) 20%float 0%float false (Some sample_line)
     (Some sample_line) 1%float.

End GridSpec.


(** * The remaining methods *)

Module InputMore.
Import Input.
Local Open Scope js_scope.

Definition set_outlinePath (p : option ref) (i : t) : t :=
  mk (type i) (name i) (sourceBlock i) (sourceBlock_ i) (connection i)
     (fieldRow i) p (align i) (visible_ i).

(** [this.sourceBlock_.workspace.rendered].  The class [Block] is
    outside the sources and the store keeps no workspaces, so the flag
    is read through [workspaceRendered]: the [rendered] flag of the
    workspace of a block, or [None] for a block whose [workspace] is
    null. *)
Definition sourceWorkspaceRendered (workspaceRendered : ref -> option bool) : M bool :=
  b <- theSourceBlock;;
  match workspaceRendered b with
  | Some r => ret r
  | None => throw TypeError
  end.

(** [for (i = 0; i < this.fieldRow.length; i++)
      this.fieldRow[i].init(this.sourceBlock_)]; the event records the
    call on the field, its argument being the receiver's
    [sourceBlock_]. *)
Fixpoint init_fields (row : list ref) : M unit :=
  match row with
  | [] => ret tt
  | field :: row => emit (FieldInit field);; init_fields row
  end.

Definition init (workspaceRendered : ref -> option bool) : M unit :=
  r <- sourceWorkspaceRendered workspaceRendered;;
  if negb r then ret tt
  else i <- this;; init_fields (fieldRow i).

(** [initOutlinePath(svgRoot)].  [Blockly.utils.createSvgElement] is
    outside the sources: [el] is the path element it returns, created
    hidden and appended to [svgRoot]. *)
Definition initOutlinePath (workspaceRendered : ref -> option bool) (el : ref) : M unit :=
  r <- sourceWorkspaceRendered workspaceRendered;;
  if negb r then ret tt
  else
    i <- this;;
    match outlinePath i with
    | Some _ => ret tt
    | None =>
        if bool_decide (type i = ValueInput)
        then setThis (set_outlinePath (Some el))
        else ret tt
    end.

(** *** Vocabulary *)

(** The receiver [i'] differs from [i] at most in its field row. *)
Definition same_but_row (i i' : t) : Prop := i' = set_fieldRow (fieldRow i') i.

(** What every run of a computation, returning or throwing, does to
    the state. *)
Definition state_goes {A} (R : St -> St -> Prop) (m : M A) : Prop :=
  forall s out s', m s = Some (out, s') -> R s s'.

(** What every run of a computation, returning or throwing, does to
    the receiver. *)
Definition receiver_goes {A} (R : t -> t -> Prop) (m : M A) : Prop :=
  forall s out s', m s = Some (out, s') -> R (fst s) (fst s').

(** The two relations on states used most: the receiver changed at
    most in its row; the receiver did not change. *)
Definition row_rel (s s' : St) : Prop := same_but_row (fst s) (fst s').
Definition eq_rel (s s' : St) : Prop := fst s' = fst s.

(** What every run of a computation, returning or throwing, does to
    the store. *)
Definition store_goes {A} (R : World -> World -> Prop) (m : M A) : Prop :=
  forall s out s', m s = Some (out, s') -> R (snd s) (snd s').

(** The field object [o'] is [o] but for its name. *)
Definition renamed (o o' : Field.t) : Prop := o' = Field.set_name (Field.name o') o.

(** Of the objects of the store, nothing was assigned: whatever
    happened to them was done by the calls of the trace. *)
Definition only_calls (w w' : World) : Prop :=
  fields w' = fields w /\ blocks w' = blocks w /\ connections w' = connections w.

(** Nothing was assigned but names of fields: the blocks and the
    connections are as they were, and every field object of the store
    is still there, changed at most in its name. *)
Definition names_written (w w' : World) : Prop :=
  blocks w' = blocks w /\ connections w' = connections w
  /\ forall r o, fields w !! r = Some o ->
       exists o', fields w' !! r = Some o' /\ renamed o o'.

(** Nothing was assigned but properties of the connection [c]. *)
Definition connection_written (c : option ref) (w w' : World) : Prop :=
  fields w' = fields w /\ blocks w' = blocks w
  /\ forall c', Some c' <> c -> connections w' !! c' = connections w !! c'.

(** Nothing was assigned but properties of the block [b]. *)
Definition block_written (b : option ref) (w w' : World) : Prop :=
  fields w' = fields w /\ connections w' = connections w
  /\ forall b', Some b' <> b -> blocks w' !! b' = blocks w !! b'.

(** The block on the other end of the input's connection, if any. *)
Definition linked_block (i : t) (w : World) : option ref :=
  match connection i with
  | Some c =>
      match connections w !! c with
      | Some k => Connection.targetBlock k
      | None => None
      end
  | None => None
  end.

Definition names_rel (s s' : St) : Prop := names_written (snd s) (snd s').
Definition calls_rel (s s' : St) : Prop := only_calls (snd s) (snd s').

(** A block after [setVisible(visible)] reached it through the
    connection. *)
Definition toggled (visible : bool) (o : Block.t) : Block.t :=
  if visible then Block.set_display "block" o
  else Block.set_rendered false (Block.set_display "none" o).

(** An outline, if any, sits on a value input. *)
Definition outline_on_value (i : t) : Prop :=
  outlinePath i <> None -> type i = ValueInput.

(** The fields of the store and the blocks and connections after a
    field without prefix or suffix was inserted under [nm]. *)
Definition simple_field (w : World) (f : ref) (o : Field.t) : Prop :=
  fields w !! f = Some o
  /\ truthy (Field.prefixField o) = false /\ truthy (Field.suffixField o) = false.

(** What a call of [insertFieldAt] on a truthy field gives whenever it
    completes, on a receiver that has its block. *)
Definition grows (fuel : nat) : Prop :=
  forall inp w l1 l2 a nm b bo out s',
    sourceBlock_ inp = JObj b -> blocks w !! b = Some bo ->
    fieldRow inp = l1 ++ l2 ->
    insertFieldAt fuel (Z.of_nat (length l1)) a nm (inp, w) = Some (out, s') ->
    truthy a = true ->
    exists new w',
      new <> []
      /\ out = Return (RetIndex (Z.of_nat (length (l1 ++ new))))
      /\ s' = (set_fieldRow (l1 ++ new ++ l2) inp, w')
      /\ blocks w' = blocks w /\ connections w' = connections w.

(** A hidden input whose connection is linked to the block [2], which
    was marked not rendered. *)
Definition hidden_input : Input.t :=
  Input.mk ValueInput "A" 1%positive (JObj 1%positive) (Some 1%positive)
           [1%positive] None ALIGN_LEFT false.
Definition hidden_world : World :=
  mkWorld {[ 1%positive := Field.mk (Some "NUM"%string) AUndefined AUndefined "0" ]}
          (<[1%positive := Block.mk true "block"]>
           {[ 2%positive := Block.mk false "none" ]})
          {[ 1%positive := Connection.mk CheckNull (Some 2%positive) [2%positive] ]}
          [].

(** A store with two plain fields outside the row of [row_input]. *)
Definition plain_world : World :=
  mkWorld (<[1%positive := Field.mk None AUndefined AUndefined "a"]>
           (<[2%positive := Field.mk None AUndefined AUndefined "b"]>
            {[ 3%positive := Field.mk (Some "X"%string) AUndefined AUndefined "c" ]}))
          {[ 1%positive := Block.mk true "block" ]}
          ∅
          [].
Definition row_input : Input.t :=
  Input.mk DummyInput "" 1%positive (JObj 1%positive) None
           [3%positive] None ALIGN_LEFT true.

End InputMore.

Module GridDom.

(** The grid options [createDom] and the constructor read. *)
Record Options := mkOptions {
  spacing : float;
  length : float;
  colour : string;
  snap : bool
}.

(** An element as [Blockly.utils.createSvgElement] builds it (the
    function is outside the sources): a tag, the attributes of the
    object literal, and, for the pattern, the elements appended to it
    so far. *)
Record Element := mkElement {
  tag : string;
  attrs : list (string * string)
}.
Record Node := mkNode {
  self : Element;
  children : list Element
}.

(** [createDom(rnd, gridOptions, defs)]: the pattern element it
    returns (and appends to [defs]). *)
Definition createDom (rnd : string) (gridOptions : Options) : Node :=
  mkNode
    (mkElement "pattern"
       [("id", "blocklyGridPattern" ++ rnd); ("patternUnits", "userSpaceOnUse")]%string)
    (if PrimFloat.ltb 0 (length gridOptions) && PrimFloat.ltb 0 (spacing gridOptions)
     then
       mkElement "line" [("stroke", colour gridOptions)]%string
       :: (if PrimFloat.ltb 1 (length gridOptions)
           then [mkElement "line" [("stroke", colour gridOptions)]%string]
           else [])
     else [mkElement "line" []]).

(** The element of the grid that stands for a created element: its
    [id], and no numeric attribute yet. *)
Definition element (n : Element) : Grid.SVGElement :=
  Grid.mkElement
    (match List.find (fun kv => bool_decide (fst kv = "id"%string)) (attrs n) with
     | Some kv => snd kv
     | None => ""%string
     end) ∅.

(** The constructor: [line1_] is the first child of the pattern,
    [line2_] the one after it; [scale_] starts at 1. *)
Definition new (pattern : Node) (options : Options) : Grid.t :=
  Grid.mk (Some (element (self pattern))) (spacing options) (length options) (snap options)
          (element <$> children pattern !! 0%nat)
          (element <$> children pattern !! 1%nat)
          1%float.

End GridDom.
(** * Properties of [Input] *)

Module InputFacts.
Import Input InputSpec.
Local Open Scope js_scope.

Lemma logs_nil w : logs [] w = w.
Proof. destruct w; unfold logs; simpl. by rewrite app_nil_r. Qed.

Lemma logs_log e es w : logs es (log e w) = logs (e :: es) w.
Proof. unfold logs, log; simpl. by rewrite <- app_assoc. Qed.

Lemma logs_logs es1 es2 w : logs es2 (logs es1 w) = logs (es1 ++ es2) w.
Proof. unfold logs; simpl. by rewrite <- app_assoc. Qed.

Lemma log_logs e w : log e w = logs [e] w.
Proof. reflexivity. Qed.

(** Running the primitive computations. *)
Ltac js_run :=
  cbv beta iota zeta delta
    [bind ret throw stuck this world setThis setWorld emit fromStore
     getField getBlock getConnection theSourceBlock sourceBlockRendered
     asIndex setFieldName];
  simpl.

Lemma when_emit (c : bool) (e : Event) (s : St) :
  when c (fun s : St => Some (Return tt, (s.1, log e s.2))) s
  = Some (Return tt, (s.1, if c then log e s.2 else s.2)).
Proof. destruct c, s; reflexivity. Qed.

(** The two loops that only call into the fields. *)
Lemma dispose_fields_run row i w :
  dispose_fields row (i, w) = Some (Return tt, (i, logs (map FieldDispose row) w)).
Proof.
  revert w. induction row as [|f row IH]; intros w; simpl.
  - by rewrite logs_nil.
  - unfold bind, emit, setWorld; simpl. rewrite IH. by rewrite logs_log.
Qed.

Lemma setVisible_fields_run v row i w :
  setVisible_fields v row (i, w)
  = Some (Return tt, (i, logs (map (fun f => FieldSetVisible f v) row) w)).
Proof.
  revert w. induction row as [|f row IH]; intros w; simpl.
  - by rewrite logs_nil.
  - unfold bind, emit, setWorld; simpl. rewrite IH. by rewrite logs_log.
Qed.

(** ** Construction *)

(** C7: constructing a ValueInput or a StatementInput with an empty
    name throws; constructing a DummyInput with an empty name returns
    an Input. *)
Theorem new_empty_name (block : ref) (connection : option ref) :
  Input.new ValueInput "" block connection = Throw EmptyName
  /\ Input.new StatementInput "" block connection = Throw EmptyName
  /\ exists i, Input.new DummyInput "" block connection = Return i
               /\ Input.name i = ""%string /\ Input.type i = DummyInput.
Proof.
  repeat split. eexists. repeat split.
Qed.

(** ** [insertFieldAt]: the two early exits *)

(** C8: an index below 0 or above the length of the row makes
    [insertFieldAt] throw the out-of-bounds error, with the receiver
    and the store exactly as they were before the call. *)
Theorem insertFieldAt_out_of_bounds (fuel : nat) (index : Z) (field : FieldArg)
    (opt_name : option string) (inp : Input.t) (w : World) :
  index < 0 \/ index > Z.of_nat (length (fieldRow inp)) ->
  insertFieldAt (S fuel) index field opt_name (inp, w)
  = Some (Throw (IndexOutOfBounds index), (inp, w)).
Proof.
  intros H. simpl. unfold bind at 1. simpl.
  assert ((index <? 0) || (index >? Z.of_nat (length (fieldRow inp))) = true) as ->.
  { apply orb_true_iff. destruct H; [left | right]; lia. }
  reflexivity.
Qed.

Lemma insertFieldAt_out_of_bounds_witness :
  insertFieldAt 1 2 (AString "x") None (sample_input, sample_world)
  = Some (Throw (IndexOutOfBounds 2), (sample_input, sample_world)).
Proof. apply insertFieldAt_out_of_bounds. right. simpl. lia. Defined.

(** A falsy field without a name: nothing is inserted, nothing is
    called, and the value returned is the receiver. *)
Lemma insertFieldAt_falsy (fuel : nat) (index : Z) (field : FieldArg)
    (opt_name : option string) (inp : Input.t) (w : World) :
  0 <= index <= Z.of_nat (length (fieldRow inp)) ->
  truthy field = false -> truthy_name opt_name = false ->
  insertFieldAt (S fuel) index field opt_name (inp, w)
  = Some (Return RetThis, (inp, w)).
Proof.
  intros H Hf Hn. simpl. unfold bind at 1. simpl.
  assert ((index <? 0) || (index >? Z.of_nat (length (fieldRow inp))) = false) as ->.
  { apply orb_false_iff. split; lia. }
  by rewrite Hf, Hn.
Qed.

(** C2: on an empty row, [insertFieldAt(0, undefined)] inserts nothing
    and leaves the row unchanged, but what it returns is the receiver,
    not the index 0. *)
Theorem insertFieldAt_falsy_returns_this :
  insertFieldAt 1 0 AUndefined None (empty_input, sample_world)
  = Some (Return RetThis, (empty_input, sample_world))
  /\ RetThis <> RetIndex 0.
Proof. split; [reflexivity | discriminate]. Qed.

(** ** [dispose] *)

Lemma dispose_run (inp : Input.t) (w : World) :
  dispose (inp, w)
  = Some (Return tt, (set_sourceBlock_ JNull inp, logs (dispose_events inp) w)).
Proof.
  unfold dispose, dispose_events.
  destruct inp as [ty nm sb sb_ conn row out al vis]; simpl.
  unfold bind, this, emit, setWorld, setThis, ret; simpl.
  destruct out as [el|]; simpl; rewrite dispose_fields_run; simpl;
    destruct conn as [c|]; simpl;
    rewrite ?logs_log, ?logs_logs, ?app_nil_r; try reflexivity.
  - by rewrite log_logs, logs_logs.
  - by rewrite log_logs, logs_logs.
Qed.

(** C1, as worded, fails: after [dispose] the row of the sample input
    still holds its field and [connection] still refers to the
    connection. *)
Lemma dispose_keeps_row_and_connection :
  ~ dispose_clears_all sample_input sample_world.
Proof.
  intros H. destruct (H _ _ (dispose_run sample_input sample_world)) as [Hrow _].
  discriminate Hrow.
Qed.

(** C1, amended: [dispose] always returns; it has called [dispose] on
    every field of the row once, in row order, and on the connection if
    there is one (after removing the outline if there is one);
    [sourceBlock_] is then null, while the row and the connection
    reference are what they were. *)
Theorem dispose_post (inp : Input.t) (w : World) :
  exists inp' w',
    dispose (inp, w) = Some (Return tt, (inp', w'))
    /\ sourceBlock_ inp' = JNull
    /\ fieldRow inp' = fieldRow inp
    /\ connection inp' = connection inp
    /\ trace w' = trace w
         ++ match outlinePath inp with Some el => [RemoveNode el] | None => [] end
         ++ map FieldDispose (fieldRow inp)
         ++ match connection inp with Some c => [ConnDispose c] | None => [] end
    /\ fields w' = fields w /\ connections w' = connections w.
Proof.
  eexists _, _. split; [apply dispose_run |]. repeat split.
Qed.

(** ** [setCheck] *)

(** C6: without a connection [setCheck] throws and changes nothing;
    with one it hands [check] to the connection, whose accepted types
    become [check], and returns the receiver, itself unchanged. *)
Theorem setCheck_spec (check : Check) (inp : Input.t) (w : World) :
  (connection inp = None ->
   setCheck check (inp, w) = Some (Throw NoConnection, (inp, w)))
  /\ (forall c k,
        connection inp = Some c -> connections w !! c = Some k ->
        exists w',
          setCheck check (inp, w) = Some (Return RetThis, (inp, w'))
          /\ connections w' !! c = Some (Connection.set_check check k)
          /\ Connection.check_ (Connection.set_check check k) = check
          /\ trace w' = trace w ++ [ConnSetCheck c check]).
Proof.
  split.
  - intros H. unfold setCheck, bind, this; simpl. by rewrite H.
  - intros c k Hc Hk. unfold setCheck, bind, this; simpl. rewrite Hc.
    unfold emit, getConnection, bind, world, setWorld, fromStore; simpl.
    rewrite Hk; simpl. eexists. split; [reflexivity |].
    simpl. rewrite lookup_insert_eq. repeat split.
Qed.

Lemma setCheck_spec_witness :
  setCheck (CheckString "Number") (empty_input, sample_world)
  = Some (Throw NoConnection, (empty_input, sample_world))
  /\ exists w',
       setCheck (CheckString "Number") (sample_input, sample_world)
       = Some (Return RetThis, (sample_input, w'))
       /\ connections w' !! 1%positive
          = Some (Connection.set_check (CheckString "Number") sample_connection)
       /\ Connection.check_ (Connection.set_check (CheckString "Number") sample_connection)
          = CheckString "Number"
       /\ trace w' = trace sample_world ++ [ConnSetCheck 1%positive (CheckString "Number")].
Proof.
  split.
  - apply (proj1 (setCheck_spec (CheckString "Number") empty_input sample_world)).
    reflexivity.
  - apply (proj2 (setCheck_spec (CheckString "Number") sample_input sample_world)
             1%positive sample_connection); reflexivity.
Defined.

(** ** [setVisible] *)

(** C5: hiding a visible input that owns a connection calls
    [setVisible(false)] on every field, then [hideAll()] on the
    connection, and returns the empty list; a block linked to the
    connection ends up with display [none] and [rendered] false. *)
Theorem setVisible_false_spec (inp : Input.t) (w : World) (c : ref)
    (k : Connection.t) :
  visible_ inp = true ->
  connection inp = Some c ->
  connections w !! c = Some k ->
  (forall child, Connection.targetBlock k = Some child -> is_Some (blocks w !! child)) ->
  exists w',
    setVisible false (inp, w) = Some (Return [], (set_visible_ false inp, w'))
    /\ trace w' = trace w
         ++ map (fun f => FieldSetVisible f false) (fieldRow inp) ++ [ConnHideAll c]
    /\ (forall child, Connection.targetBlock k = Some child ->
        exists o, blocks w' !! child = Some o
                  /\ Block.rendered o = false /\ Block.display o = "none"%string)
    /\ (Connection.targetBlock k = None -> blocks w' = blocks w).
Proof.
  intros Hv Hc Hk Hchild.
  unfold setVisible. js_run. rewrite Hv. simpl. js_run.
  rewrite setVisible_fields_run. js_run. rewrite Hc. js_run. rewrite Hk. js_run.
  destruct (Connection.targetBlock k) as [child|] eqn:Ht.
  - destruct (Hchild child eq_refl) as [o Ho].
    js_run. rewrite Ho. js_run. rewrite lookup_insert_eq. js_run.
    eexists. split; [reflexivity |]. simpl. split; [by rewrite <- app_assoc |].
    split; [| discriminate].
    intros child' [= <-]. rewrite lookup_insert_eq. eexists; repeat split.
  - js_run. eexists. split; [reflexivity |]. simpl. split; [by rewrite <- app_assoc |].
    split; [discriminate | reflexivity].
Qed.

Lemma setVisible_false_spec_witness :
  exists w',
    setVisible false (sample_input, linked_world)
    = Some (Return [], (set_visible_ false sample_input, w'))
    /\ trace w' = [FieldSetVisible 1%positive false; ConnHideAll 1%positive]
    /\ exists o, blocks w' !! 2%positive = Some o
                 /\ Block.rendered o = false /\ Block.display o = "none"%string.
Proof.
  destruct (setVisible_false_spec sample_input linked_world 1%positive linked_connection)
    as (w' & Hrun & Htrace & Hchild & _);
    [reflexivity | reflexivity | reflexivity
    | intros child [= <-]; eexists; reflexivity |].
  exists w'. split; [exact Hrun |]. split; [exact Htrace |].
  apply Hchild. reflexivity.
Defined.

(** ** [removeField] *)

Lemma renderAndBump_run (inp : Input.t) (w : World) (b : ref) (o : Block.t) :
  sourceBlock_ inp = JObj b -> blocks w !! b = Some o ->
  renderAndBump (inp, w) = Some (Return tt, (inp, logs (render_events b o) w)).
Proof.
  intros Hb Ho. unfold renderAndBump, render_events. js_run.
  rewrite Hb. js_run. rewrite Ho. js_run.
  destruct (Block.rendered o); unfold when; js_run.
  - repeat (rewrite Hb; js_run).
    by rewrite !log_logs, logs_logs.
  - by rewrite logs_nil.
Qed.

(** The search passes over fields that do not carry the name. *)
Lemma removeField_from_skip name inp w pre rest n :
  Forall (not_named w name) pre ->
  removeField_from name n (pre ++ rest) (inp, w)
  = removeField_from name (n + length pre) rest (inp, w).
Proof.
  revert n. induction pre as [|f pre IH]; intros n Hpre; simpl.
  - f_equal. lia.
  - inversion Hpre as [|? ? (o & Ho & Hn) Hpre']; subst.
    js_run. rewrite Ho. js_run.
    rewrite bool_decide_eq_false_2 by done.
    rewrite IH by done. f_equal. lia.
Qed.

Lemma removeField_from_end name inp w n :
  removeField_from name n [] (inp, w) = Some (Throw (FieldNotFound name), (inp, w)).
Proof. reflexivity. Qed.

Lemma removeField_from_hit name inp w f rest n b o :
  named w name f ->
  sourceBlock_ inp = JObj b -> blocks w !! b = Some o ->
  removeField_from name n (f :: rest) (inp, w)
  = Some (Return tt, (set_fieldRow (delete n (fieldRow inp)) inp,
                      logs (FieldDispose f :: render_events b o) w)).
Proof.
  intros (fo & Hf & Hn) Hb Ho. simpl. js_run. rewrite Hf. js_run.
  rewrite bool_decide_eq_true_2 by done. js_run.
  rewrite (renderAndBump_run _ _ b o) by done.
  by rewrite logs_log.
Qed.

(** A row whose fields are all in the store either has a first field
    of the given name or has none. *)
Lemma first_named (w : World) (name : string) (row : list ref) :
  Forall (fun f => is_Some (fields w !! f)) row ->
  (exists pre f post,
      row = pre ++ f :: post /\ Forall (not_named w name) pre /\ named w name f)
  \/ Forall (not_named w name) row.
Proof.
  induction 1 as [|f row [o Ho] Hrow IH].
  - right. constructor.
  - destruct (decide (Field.name o = Some name)) as [Hn|Hn].
    + left. exists [], f, row. repeat split; [constructor | by exists o].
    + destruct IH as [(pre & g & post & -> & Hpre & Hg) | Hnone].
      * left. exists (f :: pre), g, post. repeat split; [| done].
        constructor; [by exists o | done].
      * right. constructor; [by exists o | done].
Qed.

Lemma named_not_named (w : World) (name : string) (f : ref) :
  named w name f -> not_named w name f -> False.
Proof. intros (o & Ho & Hn) (o' & Ho' & Hn'). congruence. Qed.

(** Without an owning block the read of [this.sourceBlock_.rendered]
    throws. *)
Lemma renderAndBump_no_block (inp : Input.t) (w : World) :
  (forall b, sourceBlock_ inp <> JObj b) ->
  renderAndBump (inp, w) = Some (Throw TypeError, (inp, w)).
Proof.
  intros Hb. unfold renderAndBump. js_run.
  destruct (sourceBlock_ inp) as [| |b] eqn:E; js_run; try reflexivity.
  by destruct (Hb b).
Qed.

Lemma removeField_from_hit_no_block name inp w f rest n :
  named w name f ->
  (forall b, sourceBlock_ inp <> JObj b) ->
  removeField_from name n (f :: rest) (inp, w)
  = Some (Throw TypeError, (set_fieldRow (delete n (fieldRow inp)) inp,
                            logs [FieldDispose f] w)).
Proof.
  intros (fo & Hf & Hn) Hb. simpl. js_run. rewrite Hf. js_run.
  rewrite bool_decide_eq_true_2 by done. js_run.
  by rewrite renderAndBump_no_block.
Qed.

(** C4: for every input, when some field of the row carries the name,
    [removeField] takes the first such field in row order, calls
    [dispose] on it once, and removes that one entry from the row, the
    row shrinking by one.  Only then is the owning block consulted: an
    input that has its block re-renders it if it is rendered and
    returns; an input without one (as the constructor leaves it, or
    after [dispose]) throws a TypeError at that point, the field
    already disposed and removed.  When no field of the row carries the
    name, the call fails with the not-found assertion and changes
    nothing. *)
Theorem removeField_spec (name : string) (inp : Input.t) (w : World) :
  Forall (fun f => is_Some (fields w !! f)) (fieldRow inp) ->
  (forall b, sourceBlock_ inp = JObj b -> is_Some (blocks w !! b)) ->
  (Exists (named w name) (fieldRow inp) ->
   exists pre f post out es,
     fieldRow inp = pre ++ f :: post
     /\ Forall (not_named w name) pre
     /\ named w name f
     /\ removeField name (inp, w)
        = Some (out, (set_fieldRow (pre ++ post) inp, logs (FieldDispose f :: es) w))
     /\ S (length (pre ++ post)) = length (fieldRow inp)
     /\ count_occ Event_eq_dec (FieldDispose f :: es) (FieldDispose f) = 1%nat
     /\ (forall g, In (FieldDispose g) (FieldDispose f :: es) -> g = f)
     /\ (forall b o, sourceBlock_ inp = JObj b -> blocks w !! b = Some o ->
           out = Return tt /\ es = render_events b o)
     /\ ((forall b, sourceBlock_ inp <> JObj b) -> out = Throw TypeError /\ es = []))
  /\ (Forall (not_named w name) (fieldRow inp) ->
      removeField name (inp, w) = Some (Throw (FieldNotFound name), (inp, w))).
Proof.
  intros Hwf Hblk. split.
  - intros Hex.
    destruct (first_named w name _ Hwf) as [(pre & f & post & Hrow & Hpre & Hf) | Hnone].
    2: { exfalso. apply Exists_exists in Hex as (f & Hin & Hf).
         rewrite Forall_forall in Hnone.
         exact (named_not_named _ _ _ Hf (Hnone f Hin)). }
    assert (Hlen : S (length (pre ++ post)) = length (fieldRow inp)).
    { rewrite Hrow, !length_app. simpl. lia. }
    assert (Hrender : forall b o g,
              In (FieldDispose g) (render_events b o) -> False).
    { intros b o g. unfold render_events.
      destruct (Block.rendered o); simpl; intuition discriminate. }
    assert (Hcase : (exists b, sourceBlock_ inp = JObj b)
                    \/ (forall b, sourceBlock_ inp <> JObj b)).
    { destruct (sourceBlock_ inp) as [| |b]; [by right | by right | left; by exists b]. }
    destruct Hcase as [[b Hb] | Hb].
    + destruct (Hblk b Hb) as [o Ho].
      exists pre, f, post, (Return tt), (render_events b o).
      split; [done |]. split; [done |]. split; [done |]. split.
      { unfold removeField. js_run. rewrite Hrow.
        rewrite removeField_from_skip by done.
        rewrite (removeField_from_hit _ _ _ _ _ _ b o) by done.
        rewrite Hrow. simpl. by rewrite delete_middle. }
      split; [done |]. split.
      { rewrite count_occ_cons_eq by reflexivity. f_equal.
        apply count_occ_not_In. intros Hin. exact (Hrender b o f Hin). }
      split.
      { intros g [[= <-] | Hin]; [done |]. by destruct (Hrender b o g). }
      split.
      { intros b' o' Hb' Ho'. assert (b' = b) as -> by congruence.
        split; [done |]. congruence. }
      intros Hnone. by destruct (Hnone b).
    + exists pre, f, post, (Throw TypeError), [].
      split; [done |]. split; [done |]. split; [done |]. split.
      { unfold removeField. js_run. rewrite Hrow.
        rewrite removeField_from_skip by done.
        rewrite removeField_from_hit_no_block by done.
        rewrite Hrow. simpl. by rewrite delete_middle. }
      split; [done |]. split; [by rewrite count_occ_cons_eq |]. split.
      { intros g [[= <-] | []]. done. }
      split; [| done].
      intros b o E. by destruct (Hb b).
  - intros Hnone. unfold removeField. js_run.
    rewrite <- (app_nil_r (fieldRow inp)).
    by rewrite removeField_from_skip.
Qed.

Lemma removeField_spec_witness :
  (exists pre f post out es,
      fieldRow (set_sourceBlock_ JUndefined sample_input) = pre ++ f :: post
      /\ Forall (not_named sample_world "NUM") pre
      /\ named sample_world "NUM" f
      /\ removeField "NUM" (set_sourceBlock_ JUndefined sample_input, sample_world)
         = Some (out, (set_fieldRow (pre ++ post) (set_sourceBlock_ JUndefined sample_input),
                       logs (FieldDispose f :: es) sample_world))
      /\ S (length (pre ++ post))
         = length (fieldRow (set_sourceBlock_ JUndefined sample_input))
      /\ count_occ Event_eq_dec (FieldDispose f :: es) (FieldDispose f) = 1%nat
      /\ out = Throw TypeError /\ es = [])
  /\ (exists pre f post out es,
      fieldRow sample_input = pre ++ f :: post
      /\ named sample_world "NUM" f
      /\ removeField "NUM" (sample_input, sample_world)
         = Some (out, (set_fieldRow (pre ++ post) sample_input,
                       logs (FieldDispose f :: es) sample_world))
      /\ out = Return tt /\ es = render_events 1%positive sample_block)
  /\ removeField "TEXT" (sample_input, sample_world)
     = Some (Throw (FieldNotFound "TEXT"), (sample_input, sample_world)).
Proof.
  assert (Hwf : Forall (fun f => is_Some (fields sample_world !! f)) [1%positive]).
  { constructor; [eexists; reflexivity | constructor]. }
  assert (Hex : Exists (named sample_world "NUM") [1%positive]).
  { apply Exists_cons_hd. eexists. split; reflexivity. }
  split; [| split].
  - destruct (proj1 (removeField_spec "NUM" (set_sourceBlock_ JUndefined sample_input)
                       sample_world Hwf ltac:(intros b [=])) Hex)
      as (pre & f & post & out & es & H1 & H2 & H3 & H4 & H5 & H6 & _ & _ & H9).
    exists pre, f, post, out, es.
    destruct (H9 ltac:(intros b [=])) as [-> ->]. by repeat split.
  - destruct (proj1 (removeField_spec "NUM" sample_input sample_world Hwf
                       ltac:(intros b [= <-]; eexists; reflexivity)) Hex)
      as (pre & f & post & out & es & H1 & _ & H3 & H4 & _ & _ & _ & H8 & _).
    exists pre, f, post, out, es.
    destruct (H8 1%positive sample_block eq_refl eq_refl) as [-> ->]. by repeat split.
  - apply (proj2 (removeField_spec "TEXT" sample_input sample_world Hwf
                    ltac:(intros b [= <-]; eexists; reflexivity))).
    constructor; [| constructor].
    eexists. split; [reflexivity | discriminate].
Defined.

(** ** [insertFieldAt]: nested insertion *)

Lemma insertFieldAt_unfold fuel index field opt_name inp w :
  0 <= index <= Z.of_nat (length (fieldRow inp)) ->
  truthy field = true ->
  insertFieldAt (S fuel) index field opt_name (inp, w)
  = (r <- toField field;; insert_resolved fuel index r opt_name) (inp, w).
Proof.
  intros H Ht. simpl. unfold bind at 1. simpl.
  assert ((index <? 0) || (index >? Z.of_nat (length (fieldRow inp))) = false) as ->.
  { apply orb_false_iff. split; lia. }
  rewrite Ht. reflexivity.
Qed.

Lemma set_fieldRow_same inp : set_fieldRow (fieldRow inp) inp = inp.
Proof. by destruct inp. Qed.

Lemma splice_insert_at {A} (l1 l2 : list A) (x : A) :
  splice_insert (l1 ++ l2) (Z.of_nat (length l1)) x = l1 ++ x :: l2.
Proof.
  unfold splice_insert.
  assert ((Z.of_nat (length l1) <? 0) = false) as -> by (apply Z.ltb_ge; lia).
  rewrite length_app, Z.min_l by lia. rewrite Nat2Z.id.
  by rewrite take_app_length, drop_app_length.
Qed.

Lemma evolves_refl nm w : evolves nm w w.
Proof. split; [done |]. intros r o Ho. exists o. auto 10. Qed.

Lemma evolves_weaken nm w w' : evolves None w w' -> evolves nm w w'.
Proof.
  intros [Hb H]. split; [done |]. intros r o Ho.
  destruct (H r o Ho) as (o' & ? & ? & ? & ? & Hn). exists o'.
  repeat split; try done. destruct Hn as [|[|]]; auto.
Qed.

Lemma evolves_trans nm w1 w2 w3 :
  evolves nm w1 w2 -> evolves nm w2 w3 -> evolves nm w1 w3.
Proof.
  intros [Hb1 H1] [Hb2 H2]. split; [congruence |]. intros r o Ho.
  destruct (H1 r o Ho) as (o2 & Ho2 & ? & ? & ? & Hn2).
  destruct (H2 r o2 Ho2) as (o3 & Ho3 & ? & ? & ? & Hn3).
  exists o3. repeat split; try congruence.
  destruct Hn3 as [->|[->| ->]]; auto.
Qed.

Lemma evolves_logs nm es w : evolves nm w (logs es w).
Proof. split; [done |]. intros r o Ho. exists o. auto 10. Qed.

Lemma evolves_log nm e w : evolves nm w (log e w).
Proof. apply (evolves_logs nm [e]). Qed.

Lemma evolves_alloc nm w r o :
  fields w !! r = None -> evolves nm w (set_fields (<[r := o]> (fields w)) w).
Proof.
  intros Hr. split; [done |]. intros r' o' Ho'. exists o'. simpl.
  rewrite lookup_insert_ne by congruence. auto 10.
Qed.

Lemma evolves_set_name nm w r o :
  fields w !! r = Some o ->
  evolves nm w (set_fields (<[r := Field.set_name nm o]> (fields w)) w).
Proof.
  intros Hr. split; [done |]. intros r' o' Ho'. simpl.
  destruct (decide (r = r')) as [<-|Hne].
  - rewrite lookup_insert_eq. eexists. split; [done |].
    assert (o' = o) as -> by congruence. simpl. auto 10.
  - rewrite lookup_insert_ne by done. exists o'. auto 10.
Qed.

Lemma nests_evolves nm w w' d a :
  evolves nm w w' -> nests w d a = true -> nests w' d a = true.
Proof.
  intros [_ H]. revert a. induction d as [|d IH]; intros a; simpl; [done |].
  destruct a as [| |s|r]; try done.
  destruct (fields w !! r) as [o|] eqn:Ho; [| done].
  destruct (H r o Ho) as (o' & -> & -> & -> & _).
  rewrite !andb_true_iff, !orb_true_iff. intros [[?|?] [?|?]]; auto.
Qed.

Lemma expands_evolves nm w w' d a new :
  evolves nm w w' -> expands w d a new -> expands w' d a new.
Proof.
  intros [_ H]. revert a new. induction d as [|d IH]; intros a new; simpl; [done |].
  intros (r & o & pre & suf & -> & Ho & Hs & Hp & Hq).
  destruct (H r o Ho) as (o' & Ho' & Ep & Eq & Et & _).
  exists r, o', pre, suf. rewrite Ep, Eq. repeat split; try done.
  - destruct a; simpl in *; try done. by rewrite Et, Ep, Eq.
  - destruct (truthy (Field.prefixField o)); auto.
  - destruct (truthy (Field.suffixField o)); auto.
Qed.

Lemma unnamed_evolves w w' r :
  evolves None w w' -> unnamed w r -> unnamed w' r.
Proof.
  intros [_ H] (o & Ho & Hn). destruct (H r o Ho) as (o' & Ho' & _ & _ & _ & Hn').
  exists o'. split; [done |]. destruct Hn' as [|[|]]; congruence.
Qed.

Lemma evolves_None_inv nm w w' x :
  evolves nm w w' -> fields w' !! x = None -> fields w !! x = None.
Proof.
  intros [_ H] Hx. destruct (fields w !! x) as [o|] eqn:Ho; [| done].
  destruct (H x o Ho) as (o' & Ho' & _). congruence.
Qed.

(** *** Depth and reachability *)

Lemma nests_field w d r :
  nests w (S d) (AField r)
  = match fields w !! r with
    | Some o =>
        (negb (truthy (Field.prefixField o)) || nests w d (Field.prefixField o))
        && (negb (truthy (Field.suffixField o)) || nests w d (Field.suffixField o))
    | None => false
    end.
Proof. reflexivity. Qed.

Lemma reach_field w k r :
  reach w (S k) (AField r)
  = match fields w !! r with
    | Some o => r :: reach w k (Field.prefixField o) ++ reach w k (Field.suffixField o)
    | None => []
    end.
Proof. reflexivity. Qed.

Lemma nests_mono w d a : nests w d a = true -> nests w (S d) a = true.
Proof.
  revert a. induction d as [|d IH]; intros a; [discriminate |].
  destruct a as [| |s|r]; try done.
  rewrite (nests_field w (S d)), (nests_field w d).
  destruct (fields w !! r) as [o|]; [| done].
  rewrite !andb_true_iff, !orb_true_iff. intros [[?|?] [?|?]]; auto.
Qed.

Lemma reach_falsy w k a : truthy a = false -> reach w k a = [].
Proof. destruct k, a; simpl; done. Qed.

Lemma nests_child w d r o :
  nests w (S d) (AField r) = true -> fields w !! r = Some o ->
  (truthy (Field.prefixField o) = true -> nests w d (Field.prefixField o) = true)
  /\ (truthy (Field.suffixField o) = true -> nests w d (Field.suffixField o) = true).
Proof.
  rewrite nests_field. intros H Hr. rewrite Hr in H.
  apply andb_true_iff in H as [Hp Hs].
  split; intros Ht.
  - by rewrite Ht in Hp.
  - by rewrite Ht in Hs.
Qed.

(** Whatever is reached from a value nests no deeper than the value. *)
Lemma reach_nests w k : forall d a x,
  nests w d a = true -> x ∈ reach w k a -> nests w d (AField x) = true.
Proof.
  induction k as [|k IH]; intros d a x Hn Hx; [simpl in Hx; set_solver |].
  destruct a as [| |s|r]; try (simpl in Hx; set_solver).
  rewrite reach_field in Hx.
  destruct (fields w !! r) as [o|] eqn:Hr; [| set_solver].
  apply elem_of_cons in Hx as [-> | Hx]; [done |].
  destruct d as [|d]; [discriminate Hn |].
  destruct (nests_child w d r o Hn Hr) as [Hp Hs].
  apply nests_mono.
  apply elem_of_app in Hx as [Hx | Hx].
  - destruct (truthy (Field.prefixField o)) eqn:Ht.
    + eapply IH; [apply Hp; done | exact Hx].
    + rewrite reach_falsy in Hx by done. set_solver.
  - destruct (truthy (Field.suffixField o)) eqn:Ht.
    + eapply IH; [apply Hs; done | exact Hx].
    + rewrite reach_falsy in Hx by done. set_solver.
Qed.

(** A field whose declarations nest finitely is not reached from its
    own prefix or suffix. *)
Lemma nests_acyclic w d f o k :
  nests w d (AField f) = true -> fields w !! f = Some o ->
  f ∈ reach w k (Field.prefixField o) ++ reach w k (Field.suffixField o) -> False.
Proof.
  intros Hn Hf Hin. induction d as [|d IH]; [discriminate Hn |].
  apply IH.
  destruct (nests_child w d f o Hn Hf) as [Hp Hs].
  apply elem_of_app in Hin as [Hx | Hx].
  - destruct (truthy (Field.prefixField o)) eqn:Ht.
    + eapply reach_nests; [apply Hp; done | exact Hx].
    + rewrite reach_falsy in Hx by done. set_solver.
  - destruct (truthy (Field.suffixField o)) eqn:Ht.
    + eapply reach_nests; [apply Hs; done | exact Hx].
    + rewrite reach_falsy in Hx by done. set_solver.
Qed.

Lemma reach_evolves nm w w' k a :
  evolves nm w w' -> nests w k a = true -> reach w' k a = reach w k a.
Proof.
  intros Hev. revert a. induction k as [|k IH]; intros a Hn; [done |].
  destruct a as [| |s|r]; try done.
  rewrite nests_field in Hn. rewrite !reach_field.
  destruct (fields w !! r) as [o|] eqn:Hr; [| discriminate Hn].
  destruct (proj2 Hev r o Hr) as (o' & -> & -> & -> & _).
  apply andb_true_iff in Hn as [Hp Hs]. f_equal. f_equal.
  - destruct (truthy (Field.prefixField o)) eqn:Ht.
    + apply IH. exact Hp.
    + by rewrite !reach_falsy.
  - destruct (truthy (Field.suffixField o)) eqn:Ht.
    + apply IH. exact Hs.
    + by rewrite !reach_falsy.
Qed.

(** A declared prefix or suffix, given the specification of the
    recursive call. *)
Lemma insert_nested_run d fuel inp w l1 l2 p b bo :
  inserts d fuel ->
  sourceBlock_ inp = JObj b -> blocks w !! b = Some bo ->
  fieldRow inp = l1 ++ l2 ->
  (truthy p = true -> nests w d p = true) ->
  exists new w',
    insert_nested fuel (Z.of_nat (length l1)) p (inp, w)
    = Some (Return (Z.of_nat (length (l1 ++ new))),
            (set_fieldRow (l1 ++ new ++ l2) inp, w'))
    /\ evolves None w w'
    /\ (if truthy p then expands w' d p new else new = [])
    /\ Forall (unnamed w') new
    /\ (forall x ox, fields w !! x = Some ox -> x ∉ new -> fields w' !! x = Some ox)
    /\ (forall x, x ∈ new -> x ∈ reach w d p \/ fields w !! x = None).
Proof.
  intros IH Hb Hbo Hrow Hn. unfold insert_nested.
  destruct (truthy p) eqn:Hp.
  - specialize (Hn eq_refl).
    destruct (IH inp w l1 l2 p None b bo Hb Hbo Hrow Hp Hn)
      as (pre & r & suf & w' & Hrun & Hev & (o' & Hr & Hsf & Hname & Hpre & Hsuf)
          & Hupre & Husuf & Hframe & Hreach).
    exists (pre ++ r :: suf), w'. unfold bind at 1. rewrite Hrun. js_run.
    split; [done |]. split; [done |]. split; [| split; [| done]].
    + destruct d as [|d]; [discriminate Hn |]. simpl. by exists r, o', pre, suf.
    + apply Forall_app. split; [done |]. constructor; [| done]. by exists o'.
  - exists [], w. js_run. rewrite app_nil_r. simpl.
    rewrite <- Hrow, set_fieldRow_same.
    split; [done |]. split; [apply evolves_refl |]. split; [done |].
    split; [constructor |]. split; [done | set_solver].
Qed.

Lemma evolves_named nm w wa r o :
  fields wa = fields w -> blocks wa = blocks w ->
  fields w !! r = Some o ->
  evolves nm w (set_fields (<[r := Field.set_name nm o]> (fields w)) wa).
Proof.
  intros Hf Hb Hr. split; [done |]. intros r' o' Ho'. simpl.
  destruct (decide (r = r')) as [<-|Hne].
  - rewrite lookup_insert_eq. eexists. split; [done |].
    assert (o' = o) as -> by congruence. simpl. auto 10.
  - rewrite lookup_insert_ne by done. exists o'. auto 10.
Qed.

(** The body of [insertFieldAt] on a field object. *)
Lemma insert_resolved_run d fuel inp w l1 l2 r o nm b bo :
  inserts d fuel ->
  sourceBlock_ inp = JObj b -> blocks w !! b = Some bo ->
  fieldRow inp = l1 ++ l2 ->
  fields w !! r = Some o ->
  (truthy (Field.prefixField o) = true -> nests w d (Field.prefixField o) = true) ->
  (truthy (Field.suffixField o) = true -> nests w d (Field.suffixField o) = true) ->
  exists pre suf w' o',
    insert_resolved fuel (Z.of_nat (length l1)) r nm (inp, w)
    = Some (Return (RetIndex (Z.of_nat (length (l1 ++ pre ++ r :: suf)))),
            (set_fieldRow (l1 ++ (pre ++ r :: suf) ++ l2) inp, w'))
    /\ evolves nm w w'
    /\ fields w' !! r = Some o'
    /\ (r ∉ pre -> r ∉ suf -> o' = Field.set_name nm o)
    /\ (if truthy (Field.prefixField o')
        then expands w' d (Field.prefixField o') pre else pre = [])
    /\ (if truthy (Field.suffixField o')
        then expands w' d (Field.suffixField o') suf else suf = [])
    /\ Forall (unnamed w') pre /\ Forall (unnamed w') suf
    /\ (forall x ox, fields w !! x = Some ox -> x ∉ pre ++ r :: suf ->
                     fields w' !! x = Some ox)
    /\ (forall x, x ∈ pre ->
                  x ∈ reach w d (Field.prefixField o) \/ fields w !! x = None)
    /\ (forall x, x ∈ suf ->
                  x ∈ reach w d (Field.suffixField o) \/ fields w !! x = None).
Proof.
  intros IH Hb Hbo Hrow Hr Hnp Hns.
  (* the field is bound, initialised if the block is rendered, and named *)
  pose (wa := if Block.rendered bo
              then log (FieldInit r) (log (FieldSetSourceBlock r (JObj b)) w)
              else log (FieldSetSourceBlock r (JObj b)) w).
  assert (Hfa : fields wa = fields w) by (unfold wa; by destruct (Block.rendered bo)).
  assert (Hba : blocks wa = blocks w) by (unfold wa; by destruct (Block.rendered bo)).
  pose (w1 := set_fields (<[r := Field.set_name nm o]> (fields w)) wa).
  assert (Hw1 : evolves nm w w1) by (by apply evolves_named).
  assert (Hr1 : fields w1 !! r = Some (Field.set_name nm o))
    by apply lookup_insert_eq.
  assert (Hb1 : blocks w1 !! b = Some bo) by (unfold w1; simpl; by rewrite Hba).
  assert (Hother : forall x, x <> r -> fields w1 !! x = fields w !! x).
  { intros x Hx. unfold w1. simpl. by rewrite lookup_insert_ne. }
  (* the prefix *)
  destruct (insert_nested_run d fuel inp w1 l1 l2 (Field.prefixField o) b bo IH Hb)
    as (pre & w2 & Hrun2 & Hev2 & Hex2 & Hun2 & Hfr2 & Hre2); try done.
  { intros Ht. eapply nests_evolves; [exact Hw1 | auto]. }
  destruct (proj2 Hev2 r _ Hr1) as (o2 & Hr2 & Ep2 & Es2 & Et2 & Hn2).
  simpl in Ep2, Es2.
  assert (Hb2 : blocks w2 !! b = Some bo) by (destruct Hev2 as [-> _]; done).
  assert (Hw2 : evolves nm w w2).
  { eapply evolves_trans; [exact Hw1 | apply evolves_weaken, Hev2]. }
  (* the suffix *)
  pose (inp2 := set_fieldRow ((l1 ++ pre ++ [r]) ++ l2) inp).
  destruct (insert_nested_run d fuel inp2 w2 (l1 ++ pre ++ [r]) l2
              (Field.suffixField o) b bo IH)
    as (suf & w3 & Hrun3 & Hev3 & Hex3 & Hun3 & Hfr3 & Hre3); try done.
  { intros Ht. eapply nests_evolves; [exact Hw2 | auto]. }
  destruct (proj2 Hev3 r _ Hr2) as (o3 & Hr3 & Ep3 & Es3 & Et3 & Hn3).
  assert (Hb3 : blocks w3 !! b = Some bo) by (destruct Hev3 as [-> _]; done).
  exists pre, suf, (logs (render_events b bo) w3), o3.
  assert (Hlast : evolves None w3 (logs (render_events b bo) w3))
    by apply evolves_logs.
  split; [| split; [| split; [| split; [| split; [| split; [| split;
    [| split; [| split; [| split]]]]]]]]].
  - unfold insert_resolved.
    js_run. rewrite Hb. js_run. rewrite Hbo. js_run.
    rewrite when_emit. js_run. fold wa.
    rewrite Hfa, Hr. js_run. rewrite Hfa, lookup_insert_eq. js_run.
    fold w1. rewrite Hrun2. js_run.
    rewrite (app_assoc l1 pre l2), splice_insert_at.
    rewrite Hr2. js_run. rewrite Es2.
    replace (Z.of_nat (length (l1 ++ pre)) + 1)
      with (Z.of_nat (length (l1 ++ pre ++ [r])))
      by (rewrite !length_app; simpl; lia).
    replace ((l1 ++ pre) ++ r :: l2) with ((l1 ++ pre ++ [r]) ++ l2)
      by (by rewrite <- !app_assoc).
    match goal with
    | |- context [insert_nested fuel _ _ (?I, w2)] => change I with inp2
    end.
    rewrite Hrun3. js_run.
    rewrite (renderAndBump_run _ _ b bo) by done. js_run.
    replace ((l1 ++ pre ++ [r]) ++ suf ++ l2) with (l1 ++ (pre ++ r :: suf) ++ l2)
      by (by rewrite <- !app_assoc).
    replace ((l1 ++ pre ++ [r]) ++ suf) with (l1 ++ pre ++ r :: suf)
      by (by rewrite <- !app_assoc).
    reflexivity.
  - eapply evolves_trans; [exact Hw2 |].
    eapply evolves_trans; [apply evolves_weaken, Hev3 |].
    apply evolves_logs.
  - exact Hr3.
  - intros Hnpre Hnsuf.
    pose proof (Hfr2 r _ Hr1 Hnpre) as Hr2'.
    pose proof (Hfr3 r _ Hr2' Hnsuf) as Hr3'.
    congruence.
  - rewrite Ep3, Ep2.
    destruct (truthy (Field.prefixField o)); [| done].
    eapply expands_evolves; [exact Hlast |].
    eapply expands_evolves; [exact Hev3 | done].
  - rewrite Es3, Es2.
    destruct (truthy (Field.suffixField o)); [| done].
    eapply expands_evolves; [exact Hlast | done].
  - eapply Forall_impl; [exact Hun2 |]. intros x Hx. simpl.
    eapply unnamed_evolves; [exact Hlast |].
    eapply unnamed_evolves; [exact Hev3 | done].
  - eapply Forall_impl; [exact Hun3 |]. intros x Hx. simpl.
    eapply unnamed_evolves; [exact Hlast | done].
  - intros x ox Hx Hnew. simpl.
    apply not_elem_of_app in Hnew as [Hxpre Hnew].
    apply not_elem_of_cons in Hnew as [Hxr Hxsuf].
    apply Hfr3; [| done]. apply Hfr2; [| done].
    by rewrite Hother.
  - intros x Hx.
    destruct (truthy (Field.prefixField o)) eqn:Ht; [| subst; set_solver].
    destruct (Hre2 x Hx) as [Hin | Hnone].
    + left. by rewrite <- (reach_evolves nm w w1) by auto.
    + right. eapply evolves_None_inv; [exact Hw1 | done].
  - intros x Hx.
    destruct (truthy (Field.suffixField o)) eqn:Ht; [| subst; set_solver].
    destruct (Hre3 x Hx) as [Hin | Hnone].
    + left. by rewrite <- (reach_evolves nm w w2) by auto.
    + right. eapply evolves_None_inv; [exact Hw2 | done].
Qed.

(** With enough fuel for the nesting, a call of [insertFieldAt] on a
    truthy field returns, and the row, the store and the names are as
    [inserted] says. *)
Lemma insertFieldAt_inserts (d fuel : nat) : (d <= fuel)%nat -> inserts d fuel.
Proof.
  revert fuel. induction d as [|d IH]; intros fuel Hfuel;
    intros inp w l1 l2 a nm b bo Hb Hbo Hrow Ha Hn; [discriminate Hn |].
  destruct fuel as [|fuel]; [lia |].
  assert (IH' : inserts d fuel) by (apply IH; lia).
  rewrite insertFieldAt_unfold; [| rewrite Hrow, length_app; lia | done].
  destruct a as [| |s|r]; try discriminate Ha.
  - (* a text: a new label *)
    simpl toField. js_run.
    pose (r := fresh (dom (fields w))).
    pose (w0 := set_fields (<[r := FieldLabel s]> (fields w)) w).
    assert (Hfresh : fields w !! r = None)
      by (apply not_elem_of_dom, is_fresh).
    assert (Hr0 : fields w0 !! r = Some (FieldLabel s)) by apply lookup_insert_eq.
    destruct (insert_resolved_run d fuel inp w0 l1 l2 r (FieldLabel s) nm b bo)
      as (pre & suf & w' & o' & Hrun & Hev & Hr' & Hname & Hp & Hs
          & Hupre & Husuf & Hframe & Hrpre & Hrsuf); try done.
    destruct (proj2 Hev r _ Hr0) as (o'' & Hr'' & Ep & Es & Et & _).
    assert (o'' = o') as -> by congruence. simpl in Ep, Es, Et.
    rewrite Ep in Hp. rewrite Es in Hs. simpl in Hp, Hs. subst pre suf.
    exists [], r, [], w'. fold r. fold w0.
    split; [exact Hrun |].
    split; [eapply evolves_trans; [by apply evolves_alloc | exact Hev] |].
    split; [| split; [done | split; [done | split]]].
    + exists o'. rewrite Ep, Es. simpl.
      rewrite (Hname ltac:(set_solver) ltac:(set_solver)) in *.
      repeat split; done.
    + intros x ox Hx Hnew. apply Hframe; [| done].
      simpl. rewrite lookup_insert_ne; [done |].
      intros <-. congruence.
    + intros x Hx. right.
      apply list_elem_of_singleton in Hx as ->. done.
  - (* a field object *)
    pose proof Hn as Hn'. rewrite nests_field in Hn'.
    destruct (fields w !! r) as [o|] eqn:Hr; [| discriminate Hn'].
    destruct (nests_child w d r o Hn Hr) as [Hnp Hns].
    destruct (insert_resolved_run d fuel inp w l1 l2 r o nm b bo)
      as (pre & suf & w' & o' & Hrun & Hev & Hr' & Hname & Hp & Hs
          & Hupre & Husuf & Hframe & Hrpre & Hrsuf); try done.
    assert (Hrp : r ∉ pre).
    { intros Hin. destruct (Hrpre r Hin) as [Hre | Hnone]; [| congruence].
      apply (nests_acyclic w (S d) r o d Hn Hr). apply elem_of_app. by left. }
    assert (Hrs : r ∉ suf).
    { intros Hin. destruct (Hrsuf r Hin) as [Hre | Hnone]; [| congruence].
      apply (nests_acyclic w (S d) r o d Hn Hr). apply elem_of_app. by right. }
    exists pre, r, suf, w'. simpl toField. js_run.
    split; [exact Hrun |]. split; [exact Hev |].
    split; [| split; [done | split; [done | split; [done |]]]].
    + exists o'. rewrite (Hname Hrp Hrs) in *. repeat split; done.
    + intros x Hx. rewrite reach_field, Hr.
      apply elem_of_app in Hx as [Hx | Hx].
      * destruct (Hrpre x Hx) as [? | ?]; [left | by right].
        apply elem_of_cons. right. apply elem_of_app. by left.
      * apply elem_of_cons in Hx as [-> | Hx]; [left; by left |].
        destruct (Hrsuf x Hx) as [? | ?]; [left | by right].
        apply elem_of_cons. right. apply elem_of_app. by right.
Qed.

(** The row around an index. *)
Lemma row_split (row : list ref) (i : Z) :
  0 <= i <= Z.of_nat (length row) ->
  row = take (Z.to_nat i) row ++ drop (Z.to_nat i) row
  /\ Z.of_nat (length (take (Z.to_nat i) row)) = i.
Proof.
  intros H. split; [by rewrite take_drop |].
  rewrite length_take. lia.
Qed.

(** A value that declares nothing further expands to one row entry. *)
Lemma expands_one w a new :
  expands w 1 a new ->
  exists r o, new = [r] /\ fields w !! r = Some o /\ stands_for a r o.
Proof.
  simpl. intros (r & o & pre & suf & -> & Ho & Hs & Hp & Hq).
  destruct (truthy (Field.prefixField o)); [done |].
  destruct (truthy (Field.suffixField o)); [done |].
  subst. by exists r, o.
Qed.

(** On an input that has its owning block: on a row of length [n], at
    an index [0 <= i <= n], inserting a field that declares a prefix
    and a suffix, neither of which declares anything further, returns
    [i + 3]; the row then has length [n + 3] and holds at [i], [i + 1],
    [i + 2] the prefix, the field and the suffix, the entries before
    and after being the old ones. *)
Lemma insertFieldAt_prefix_suffix (fuel : nat) (inp : Input.t) (w : World)
    (i : Z) (f : ref) (o : Field.t) (opt_name : option string)
    (b : ref) (bo : Block.t) :
  sourceBlock_ inp = JObj b -> blocks w !! b = Some bo ->
  0 <= i <= Z.of_nat (length (fieldRow inp)) ->
  fields w !! f = Some o ->
  truthy (Field.prefixField o) = true -> nests w 1 (Field.prefixField o) = true ->
  truthy (Field.suffixField o) = true -> nests w 1 (Field.suffixField o) = true ->
  exists rp rs op os inp' w',
    insertFieldAt (S (S fuel)) i (AField f) opt_name (inp, w)
    = Some (Return (RetIndex (i + 3)), (inp', w'))
    /\ fieldRow inp'
       = take (Z.to_nat i) (fieldRow inp) ++ [rp; f; rs] ++ drop (Z.to_nat i) (fieldRow inp)
    /\ Z.of_nat (length (fieldRow inp')) = Z.of_nat (length (fieldRow inp)) + 3
    /\ fieldRow inp' !! Z.to_nat i = Some rp
    /\ fieldRow inp' !! Z.to_nat (i + 1) = Some f
    /\ fieldRow inp' !! Z.to_nat (i + 2) = Some rs
    /\ fields w' !! rp = Some op /\ stands_for (Field.prefixField o) rp op
    /\ fields w' !! rs = Some os /\ stands_for (Field.suffixField o) rs os.
Proof.
  intros Hb Hbo Hi Hf Hp Hnp Hs Hns.
  destruct (row_split (fieldRow inp) i Hi) as [Hrow Hlen].
  set (l1 := take (Z.to_nat i) (fieldRow inp)) in *.
  set (l2 := drop (Z.to_nat i) (fieldRow inp)) in *.
  assert (Hn : nests w 2 (AField f) = true).
  { change (nests w 2 (AField f))
      with (match fields w !! f with
            | Some o => (negb (truthy (Field.prefixField o)) || nests w 1 (Field.prefixField o))
                        && (negb (truthy (Field.suffixField o)) || nests w 1 (Field.suffixField o))
            | None => false
            end).
    rewrite Hf, Hnp, Hns. by rewrite !orb_true_r. }
  destruct (insertFieldAt_inserts 2 (S (S fuel)) ltac:(lia) inp w l1 l2 (AField f)
              opt_name b bo Hb Hbo Hrow eq_refl Hn)
    as (pre & r & suf & w' & Hrun & Hev & (o' & Ho' & Hsf & _ & Hpre & Hsuf) & _).
  rewrite Hlen in Hrun. simpl in Hsf, Hpre, Hsuf. subst r.
  destruct (proj2 Hev f o Hf) as (o'' & Ho'' & Ep & Es & _).
  assert (o'' = o') as -> by congruence.
  rewrite Ep, Hp in Hpre. rewrite Es, Hs in Hsuf.
  apply expands_one in Hpre as (rp & op & -> & Hop & Hsp).
  apply expands_one in Hsuf as (rs & os & -> & Hos & Hss).
  assert (Hl1 : length l1 = Z.to_nat i) by lia.
  exists rp, rs, op, os, (set_fieldRow (l1 ++ ([rp] ++ f :: [rs]) ++ l2) inp), w'.
  split.
  { rewrite Hrun. repeat f_equal. rewrite length_app. simpl. lia. }
  simpl. split; [done |]. split.
  { pose proof (f_equal length Hrow) as HL. rewrite length_app in HL.
    rewrite !length_app. simpl. lia. }
  split; [| split; [| split]].
  - rewrite lookup_app_r by lia. by rewrite Hl1, Nat.sub_diag.
  - rewrite lookup_app_r by lia.
    replace (Z.to_nat (i + 1) - length l1)%nat with 1%nat by lia. done.
  - rewrite lookup_app_r by lia.
    replace (Z.to_nat (i + 2) - length l1)%nat with 2%nat by lia. done.
  - done.
Qed.

Lemma insertFieldAt_prefix_suffix_sample :
  exists rp rs op os inp' w',
    insertFieldAt 2 1 (AField 1%positive) None (nested_input, nested_world)
    = Some (Return (RetIndex (1 + 3)), (inp', w'))
    /\ fieldRow inp'
       = take (Z.to_nat 1) (fieldRow nested_input) ++ [rp; 1%positive; rs]
         ++ drop (Z.to_nat 1) (fieldRow nested_input)
    /\ Z.of_nat (length (fieldRow inp')) = Z.of_nat (length (fieldRow nested_input)) + 3
    /\ fieldRow inp' !! Z.to_nat 1 = Some rp
    /\ fieldRow inp' !! Z.to_nat (1 + 1) = Some 1%positive
    /\ fieldRow inp' !! Z.to_nat (1 + 2) = Some rs
    /\ fields w' !! rp = Some op /\ stands_for (AField 2%positive) rp op
    /\ fields w' !! rs = Some os /\ stands_for (AString "px") rs os.
Proof.
  apply (insertFieldAt_prefix_suffix 0 nested_input nested_world 1 1%positive
           (Field.mk (Some "UNIT"%string) (AField 2%positive) (AString "px") "10")
           None 1%positive (Block.mk true "block"));
    try reflexivity.
  simpl. lia.
Defined.

(** Without an owning block a call on a field object gets as far as
    [field.setSourceBlock(this.sourceBlock_)] and throws at the read of
    [this.sourceBlock_.rendered]. *)
Lemma insertFieldAt_no_block (fuel : nat) (i : Z) (f : ref) (opt_name : option string)
    (inp : Input.t) (w : World) :
  (forall b, sourceBlock_ inp <> JObj b) ->
  0 <= i <= Z.of_nat (length (fieldRow inp)) ->
  insertFieldAt (S fuel) i (AField f) opt_name (inp, w)
  = Some (Throw TypeError, (inp, logs [FieldSetSourceBlock f (sourceBlock_ inp)] w)).
Proof.
  intros Hb Hi. rewrite insertFieldAt_unfold by done.
  simpl toField. js_run. unfold insert_resolved. js_run.
  destruct (sourceBlock_ inp) as [| |b] eqn:E; js_run;
    [reflexivity | reflexivity | by destruct (Hb b)].
Qed.

(** The constructor leaves [sourceBlock_] undefined, whatever row the
    input is given afterwards. *)
Lemma new_no_block (ty : ConnectionType) (nm : string) (block : ref)
    (conn : option ref) (inp0 : Input.t) (row : list ref) :
  Input.new ty nm block conn = Return inp0 ->
  sourceBlock_ (set_fieldRow row inp0) = JUndefined
  /\ fieldRow (set_fieldRow row inp0) = row
  /\ fieldRow inp0 = [].
Proof.
  unfold Input.new.
  destruct (bool_decide (ty ≠ DummyInput) && negb (bool_decide (nm ≠ EmptyString)));
    [discriminate |].
  by intros [= <-].
Qed.

(** C3: the claimed row is not what an input made by the constructor
    gives.  The constructor stores the block as [sourceBlock], the
    method reads [sourceBlock_]; so on such an input, with any row and
    any index in range, [insertFieldAt] on a field object (declaring a
    prefix and a suffix or not) calls [setSourceBlock(undefined)] on the
    field and throws a TypeError: nothing is inserted, the row keeps its
    length, no index is returned. *)
Theorem insertFieldAt_constructed_throws (ty : ConnectionType) (nm : string)
    (block : ref) (conn : option ref) (inp0 : Input.t) (row : list ref)
    (w : World) (fuel : nat) (i : Z) (f : ref) (opt_name : option string) :
  Input.new ty nm block conn = Return inp0 ->
  0 <= i <= Z.of_nat (length row) ->
  insertFieldAt (S fuel) i (AField f) opt_name (set_fieldRow row inp0, w)
  = Some (Throw TypeError,
          (set_fieldRow row inp0, logs [FieldSetSourceBlock f JUndefined] w))
  /\ length (fieldRow (set_fieldRow row inp0)) = length row.
Proof.
  intros Hnew Hi.
  destruct (new_no_block ty nm block conn inp0 row Hnew) as (Hb & Hrow & _).
  split; [| by rewrite Hrow].
  rewrite <- Hb. apply insertFieldAt_no_block.
  - intros b. by rewrite Hb.
  - by rewrite Hrow.
Qed.

Lemma insertFieldAt_constructed_throws_witness :
  insertFieldAt 2 0 (AField 1%positive) None
    (Input.mk DummyInput "" 1%positive JUndefined None [] None ALIGN_LEFT true,
     nested_world)
  = Some (Throw TypeError,
          (Input.mk DummyInput "" 1%positive JUndefined None [] None ALIGN_LEFT true,
           logs [FieldSetSourceBlock 1%positive JUndefined] nested_world))
  /\ length (fieldRow (Input.mk DummyInput "" 1%positive JUndefined None [] None
                         ALIGN_LEFT true)) = 0%nat.
Proof.
  apply (insertFieldAt_constructed_throws DummyInput "" 1%positive None _ []
           nested_world 1 0 1%positive None eq_refl).
  simpl. lia.
Defined.

(** A field object is among the entries it expands to. *)
Lemma expands_field (w : World) (k : nat) (p : ref) (new : list ref) :
  expands w k (AField p) new -> p ∈ new.
Proof.
  destruct k; simpl; [done |].
  intros (r & o & pre & suf & -> & _ & -> & _).
  apply elem_of_app. right. apply elem_of_cons. by left.
Qed.

Lemma inserted_names (d : nat) (nm : option string) (w w' : World) (f r : ref)
    (o : Field.t) (pre suf : list ref) :
  fields w !! f = Some o ->
  inserted d nm w (AField f) pre r suf w' ->
  r = f /\ names_assigned d nm o f pre suf w'.
Proof.
  intros Hf (Hev & (o' & Ho' & Hsf & Hname & Hpre & Hsuf) & Hup & Hus & _).
  simpl in Hsf. subst r. split; [done |].
  destruct (proj2 Hev f o Hf) as (o'' & Ho'' & Ep & Es & _).
  assert (o'' = o') as -> by congruence.
  rewrite Ep in Hpre. rewrite Es in Hsuf.
  split; [by exists o' |]. split; [done |]. split; [done |].
  split.
  { intros p E. rewrite E in Hpre. simpl in Hpre. by eapply expands_field. }
  split.
  { intros q E. rewrite E in Hsuf. simpl in Hsuf. by eapply expands_field. }
  split; [done |]. split; [done |].
  intros ->. apply Forall_app. split; [done |].
  constructor; [by exists o' | done].
Qed.

(** On an input that has its owning block, [insertFieldAt] stores its
    name argument in the field object it inserts, whatever name the
    field carried before, and the recursive calls for the declared
    prefix and suffix, made without a name, leave every entry they add
    with an undefined name; so a call without a name leaves the field
    itself with an undefined name.  The same holds for
    [appendField]. *)
Lemma insertFieldAt_assigns_name (d fuel : nat) (inp : Input.t) (w : World)
    (i : Z) (f : ref) (o : Field.t) (opt_name : option string) (b : ref) (bo : Block.t) :
  (d <= fuel)%nat ->
  sourceBlock_ inp = JObj b -> blocks w !! b = Some bo ->
  0 <= i <= Z.of_nat (length (fieldRow inp)) ->
  fields w !! f = Some o ->
  nests w d (AField f) = true ->
  (exists pre suf w',
      insertFieldAt fuel i (AField f) opt_name (inp, w)
      = Some (Return (RetIndex (i + Z.of_nat (length (pre ++ f :: suf)))),
              (set_fieldRow (take (Z.to_nat i) (fieldRow inp) ++ (pre ++ f :: suf)
                             ++ drop (Z.to_nat i) (fieldRow inp)) inp, w'))
      /\ names_assigned d opt_name o f pre suf w')
  /\ (exists pre suf w',
      appendField fuel (AField f) opt_name (inp, w)
      = Some (Return RetThis, (set_fieldRow (fieldRow inp ++ pre ++ f :: suf) inp, w'))
      /\ names_assigned d opt_name o f pre suf w').
Proof.
  intros Hfuel Hb Hbo Hi Hf Hn. split.
  - destruct (row_split (fieldRow inp) i Hi) as [Hrow Hlen].
    destruct (insertFieldAt_inserts d fuel Hfuel inp w _ _ (AField f) opt_name b bo
                Hb Hbo Hrow eq_refl Hn)
      as (pre & r & suf & w' & Hrun & Hins).
    destruct (inserted_names _ _ _ _ _ _ _ _ _ Hf Hins) as [-> Hnames].
    rewrite Hlen in Hrun.
    exists pre, suf, w'. split; [| done].
    rewrite Hrun. repeat f_equal. rewrite length_app. lia.
  - assert (Hrow : fieldRow inp = fieldRow inp ++ []) by (by rewrite app_nil_r).
    destruct (insertFieldAt_inserts d fuel Hfuel inp w _ _ (AField f) opt_name b bo
                Hb Hbo Hrow eq_refl Hn)
      as (pre & r & suf & w' & Hrun & Hins).
    destruct (inserted_names _ _ _ _ _ _ _ _ _ Hf Hins) as [-> Hnames].
    exists pre, suf, w'. split; [| done].
    unfold appendField. js_run. rewrite Hrun. js_run. by rewrite app_nil_r.
Qed.

(** In the sample store the field [1], named [UNIT], declares as its
    prefix the field [2], named [LABEL]: after the insertion without a
    name both names are undefined. *)
Lemma insertFieldAt_assigns_name_sample :
  exists pre suf w',
    insertFieldAt 2 0 (AField 1%positive) None (nested_input, nested_world)
    = Some (Return (RetIndex (0 + Z.of_nat (length (pre ++ 1%positive :: suf)))),
            (set_fieldRow (take (Z.to_nat 0) (fieldRow nested_input)
                           ++ (pre ++ 1%positive :: suf)
                           ++ drop (Z.to_nat 0) (fieldRow nested_input))
                          nested_input, w'))
    /\ 2%positive ∈ pre
    /\ unnamed w' 2%positive
    /\ unnamed w' 1%positive.
Proof.
  destruct (insertFieldAt_assigns_name 2 2 nested_input nested_world 0 1%positive
              (Field.mk (Some "UNIT"%string) (AField 2%positive) (AString "px") "10")
              None 1%positive (Block.mk true "block"))
    as [(pre & suf & w' & Hrun & _ & _ & _ & Hp & _ & Hpre & _ & Hall) _];
    [lia | reflexivity | reflexivity | simpl; lia | reflexivity | reflexivity |].
  exists pre, suf, w'. split; [exact Hrun |].
  pose proof (Hp 2%positive eq_refl) as Hin.
  split; [exact Hin |]. split.
  - rewrite Forall_forall in Hpre. by apply Hpre.
  - specialize (Hall eq_refl). rewrite Forall_forall in Hall.
    apply Hall. apply elem_of_app. right. apply elem_of_cons. by left.
Qed.



(** The field inserted above carried the name [UNIT] before the call. *)
Example nested_world_named : named nested_world "UNIT" 1%positive.
Proof. eexists. split; reflexivity. Qed.

(** A call on a truthy field never returns the receiver: what the
    recursive calls of [insertFieldAt] hand back is an index. *)
Lemma bind_Return {A B} (m : M A) (k : A -> M B) s v s' :
  bind m k s = Some (Return v, s') ->
  exists a s1, m s = Some (Return a, s1) /\ k a s1 = Some (Return v, s').
Proof.
  unfold bind. destruct (m s) as [[[a|e] s1]|]; [eauto | discriminate | discriminate].
Qed.

Lemma insertFieldAt_truthy_index fuel index field opt_name s v s' :
  truthy field = true ->
  insertFieldAt fuel index field opt_name s = Some (Return v, s') ->
  exists n, v = RetIndex n.
Proof.
  intros Ht H. destruct fuel as [|fuel]; [discriminate H |].
  simpl in H. apply bind_Return in H as (i & s1 & _ & H).
  destruct (_ || _); [discriminate H |].
  rewrite Ht in H. simpl in H.
  repeat (apply bind_Return in H as (? & ? & _ & H)).
  injection H as <- _. eauto.
Qed.

(** ** Runs on the sample stores *)

Example removeField_sample :
  removeField "NUM" (sample_input, sample_world)
  = Some (Return tt, (set_fieldRow [] sample_input,
                      logs [FieldDispose 1%positive] sample_world)).
Proof. reflexivity. Qed.

Example removeField_twice :
  removeField "NUM" (set_fieldRow [] sample_input,
                     logs [FieldDispose 1%positive] sample_world)
  = Some (Throw (FieldNotFound "NUM"),
          (set_fieldRow [] sample_input, logs [FieldDispose 1%positive] sample_world)).
Proof. reflexivity. Qed.

Example insertFieldAt_nested_row :
  match insertFieldAt 2 1 (AField 1%positive) (Some "UNIT"%string)
          (nested_input, nested_world) with
  | Some (Return v, (inp', w')) =>
      v = RetIndex 4
      /\ fieldRow inp' = [3; 2; 1; 4]%positive
      /\ (Field.name <$> fields w' !! 1%positive) = Some (Some "UNIT"%string)
      /\ (Field.name <$> fields w' !! 2%positive) = Some None
      /\ fields w' !! 4%positive = Some (FieldLabel "px")
      /\ trace w' = [ FieldSetSourceBlock 1 (JObj 1); FieldInit 1;
                      FieldSetSourceBlock 2 (JObj 1); FieldInit 2;
                      BlockRender 1; BlockBumpNeighbours 1;
                      FieldSetSourceBlock 4 (JObj 1); FieldInit 4;
                      BlockRender 1; BlockBumpNeighbours 1;
                      BlockRender 1; BlockBumpNeighbours 1 ]%positive
  | _ => False
  end.
Proof. vm_compute. repeat split. Qed.

Example insertFieldAt_disposed :
  insertFieldAt 1 0 (AField 1%positive) None
    (set_sourceBlock_ JNull sample_input, sample_world)
  = Some (Throw TypeError,
          (set_sourceBlock_ JNull sample_input,
           logs [FieldSetSourceBlock 1%positive JNull] sample_world)).
Proof. reflexivity. Qed.

Example new_then_insert :
  match Input.new DummyInput "" 1%positive None with
  | Return inp =>
      insertFieldAt 1 0 (AString "x") None (inp, sample_world)
  | Throw _ => None
  end
  = Some (Throw TypeError,
          (Input.mk DummyInput "" 1%positive JUndefined None [] None ALIGN_LEFT true,
           logs [FieldSetSourceBlock 2%positive JUndefined]
             (set_fields (<[2%positive := FieldLabel "x"]> (fields sample_world))
                sample_world))).
Proof. vm_compute. reflexivity. Qed.

End InputFacts.

(** * Properties of [Grid] *)

Module GridFacts.
Import Grid GridSpec.

Example Math_floor_samples :
  Math_floor 2.5 = 2%float /\ Math_floor (-2.5) = (-3)%float
  /\ Math_floor 0.5 = 0%float /\ Math_floor (-0.5) = (-1)%float
  /\ Math_floor 7 = 7%float /\ Math_floor (-0) = (-0)%float
  /\ Math_floor infinity = infinity /\ Math_floor nan = nan.
Proof. repeat split. Qed.

(** *** Zeros *)

Lemma is_zero_SF (x : float) :
  PrimFloat.is_zero x = true -> exists s, Prim2SF x = S754_zero s.
Proof.
  unfold PrimFloat.is_zero. rewrite FloatAxioms.eqb_spec.
  change (Prim2SF 0) with (S754_zero false).
  destruct (Prim2SF x) as [s | s | | s m e]; intros H.
  - eauto.
  - by destruct s.
  - discriminate H.
  - by destruct s.
Qed.

Lemma SF_is_zero (x : float) (s : bool) :
  Prim2SF x = S754_zero s -> PrimFloat.is_zero x = true.
Proof.
  intros H. unfold PrimFloat.is_zero. rewrite FloatAxioms.eqb_spec, H. reflexivity.
Qed.

Lemma SF_eq (x y : float) : Prim2SF x = Prim2SF y -> x = y.
Proof. apply Prim2SF_inj. Qed.

(** Half of a zero is a zero. *)
Lemma is_zero_half (x : float) :
  PrimFloat.is_zero x = true -> PrimFloat.is_zero (x / 2) = true.
Proof.
  intros [s H]%is_zero_SF. apply (SF_is_zero _ s).
  rewrite FloatAxioms.div_spec, H. by destruct s.
Qed.

(** Subtracting and adding a zero give coinciding numbers. *)
Lemma sub_add_zero (h z : float) :
  PrimFloat.is_zero z = true -> coincide (h - z) (h + z).
Proof.
  intros [s Hz]%is_zero_SF.
  pose proof (FloatAxioms.sub_spec h z) as Hs. pose proof (FloatAxioms.add_spec h z) as Ha.
  rewrite Hz in Hs, Ha.
  destruct (Prim2SF h) as [sh | sh | | sh m e] eqn:Hh.
  - right. split.
    + apply (SF_is_zero _ (if sh then negb s else false)). rewrite Hs.
      by destruct sh, s.
    + apply (SF_is_zero _ (if sh then s else false)). rewrite Ha.
      by destruct sh, s.
  - left. apply SF_eq. by rewrite Hs, Ha.
  - left. apply SF_eq. by rewrite Hs, Ha.
  - left. apply SF_eq. by rewrite Hs, Ha.
Qed.

(** Scaling keeps coinciding numbers coinciding. *)
Lemma mul_coincide (x y scale : float) :
  coincide x y -> coincide (x * scale) (y * scale).
Proof.
  intros [-> | [[sx Hx]%is_zero_SF [sy Hy]%is_zero_SF]]; [by left |].
  pose proof (FloatAxioms.mul_spec x scale) as Hmx. pose proof (FloatAxioms.mul_spec y scale) as Hmy.
  rewrite Hx in Hmx. rewrite Hy in Hmy.
  destruct (Prim2SF scale) as [s | s | | s m e].
  - right. split; eapply SF_is_zero; [exact Hmx | exact Hmy].
  - left. apply SF_eq. by rewrite Hmx, Hmy.
  - left. apply SF_eq. by rewrite Hmx, Hmy.
  - right. split; eapply SF_is_zero; [exact Hmx | exact Hmy].
Qed.

Lemma start_end_coincide (g : t) (scale : float) :
  PrimFloat.is_zero (length_ g) = true -> coincide (start_of g scale) (end_of g scale).
Proof.
  intros H. unfold start_of, end_of.
  apply mul_coincide, sub_add_zero, is_zero_half, H.
Qed.

(** ** [update] *)

(** C9, as worded, fails at the scale NaN: the product is NaN, which
    does not equal 0, yet the tile is 100 by 100. *)
Lemma update_nan_scale : ~ tile_as_worded sample_grid nan.
Proof.
  intros H. destruct (H sample_pattern eq_refl) as (g' & p' & Hup & Hp & Hw & _).
  apply (f_equal snd) in Hup. simpl in Hup. subst g'.
  apply (f_equal (fun o => match o with
                           | Some e => attributes e !! "width"%string
                           | None => None
                           end)) in Hp.
  rewrite Hw in Hp.
  apply (f_equal (fun o => match o with
                           | Some v => PrimFloat.is_nan v
                           | None => false
                           end)) in Hp.
  vm_compute in Hp. discriminate Hp.
Qed.

(** C9, amended: on a grid that still has its pattern, [update(scale)]
    sets the tile width and height to [spacing * scale], except that
    both are 100 when that product is 0, -0 or NaN; every line present
    gets its endpoints from the computed start and end; and when the
    line length is 0 the start and the end coincide. *)
Theorem update_spec (g : t) (scale : float) (p : SVGElement) :
  gridPattern_ g = Some p ->
  exists g' p',
    update scale g = (Return tt, g')
    /\ gridPattern_ g' = Some p'
    /\ attributes p' !! "width"%string
       = Some (if PrimFloat.is_zero (spacing_ g * scale) || PrimFloat.is_nan (spacing_ g * scale)
               then 100%float else (spacing_ g * scale)%float)
    /\ attributes p' !! "height"%string
       = Some (if PrimFloat.is_zero (spacing_ g * scale) || PrimFloat.is_nan (spacing_ g * scale)
               then 100%float else (spacing_ g * scale)%float)
    /\ (forall l, line1_ g = Some l ->
        exists l', line1_ g' = Some l'
                   /\ attributes l' !! "x1"%string = Some (start_of g scale)
                   /\ attributes l' !! "x2"%string = Some (end_of g scale))
    /\ (forall l, line2_ g = Some l ->
        exists l', line2_ g' = Some l'
                   /\ attributes l' !! "y1"%string = Some (start_of g scale)
                   /\ attributes l' !! "y2"%string = Some (end_of g scale))
    /\ (PrimFloat.is_zero (length_ g) = true ->
        coincide (start_of g scale) (end_of g scale)).
Proof.
  intros Hp. unfold update. simpl. rewrite Hp.
  eexists _, _. split; [reflexivity |]. simpl. split; [reflexivity |].
  assert (Hsafe : safeSpacing (set_scale_ scale g) scale
                  = if PrimFloat.is_zero (spacing_ g * scale) || PrimFloat.is_nan (spacing_ g * scale)
                    then 100%float else (spacing_ g * scale)%float).
  { unfold safeSpacing, truthy_number. simpl. by destruct (_ || _). }
  split; [| split; [| split; [| split]]].
  - unfold setAttribute; simpl.
    rewrite lookup_insert_ne by done. rewrite lookup_insert_eq. by rewrite Hsafe.
  - unfold setAttribute; simpl. rewrite lookup_insert_eq. by rewrite Hsafe.
  - intros l ->. eexists. split; [reflexivity |]. unfold setAttribute; simpl. split.
    + rewrite !lookup_insert_ne by done. by rewrite lookup_insert_eq.
    + rewrite lookup_insert_ne by done. by rewrite lookup_insert_eq.
  - intros l ->. eexists. split; [reflexivity |]. unfold setAttribute; simpl. split.
    + rewrite !lookup_insert_ne by done. by rewrite lookup_insert_eq.
    + by rewrite lookup_insert_eq.
  - apply start_end_coincide.
Qed.

Lemma update_spec_witness :
  exists g' p',
    update 0 pointless_grid = (Return tt, g')
    /\ gridPattern_ g' = Some p'
    /\ attributes p' !! "width"%string = Some 100%float
    /\ attributes p' !! "height"%string = Some 100%float
    /\ coincide (start_of pointless_grid 0) (end_of pointless_grid 0).
Proof.
  destruct (update_spec pointless_grid 0 sample_pattern eq_refl)
    as (g' & p' & Hup & Hp & Hw & Hh & _ & _ & Hc).
  exists g', p'.
  split; [exact Hup |]. split; [exact Hp |]. split; [exact Hw |].
  split; [exact Hh |]. exact (Hc eq_refl).
Defined.

(** ** Runs on the sample grids *)

Example update_sample_grid :
  match update 2 sample_grid with
  | (Return tt, g') =>
      (gridPattern_ g' ≫= fun p => attributes p !! "width"%string) = Some 20%float
      /\ (gridPattern_ g' ≫= fun p => attributes p !! "height"%string) = Some 20%float
      /\ (line1_ g' ≫= fun l => attributes l !! "stroke-width"%string) = Some 2%float
      /\ (line1_ g' ≫= fun l => attributes l !! "x1"%string) = Some 10%float
      /\ (line1_ g' ≫= fun l => attributes l !! "x2"%string) = Some 12%float
      /\ (line1_ g' ≫= fun l => attributes l !! "y1"%string) = Some 11%float
      /\ (line1_ g' ≫= fun l => attributes l !! "y2"%string) = Some 11%float
      /\ line2_ g' = None /\ scale_ g' = 2%float
  | _ => False
  end.
Proof. vm_compute. repeat split. Qed.

Example update_zero_scale :
  match update 0 sample_grid with
  | (Return tt, g') =>
      (gridPattern_ g' ≫= fun p => attributes p !! "width"%string) = Some 100%float
  | _ => False
  end.
Proof. vm_compute. reflexivity. Qed.

Example update_disposed :
  fst (update 1 (dispose sample_grid)) = Throw TypeError.
Proof. reflexivity. Qed.

End GridFacts.

(** * Further properties of [Input] *)

Module InputExtra.
Import Input InputSpec InputMore InputFacts.
Local Open Scope js_scope.

(** ** Visibility *)

(** X1: [setVisible] with the state the input already has returns the
    empty list and changes neither the receiver nor the store: no
    field and no connection is called. *)
Theorem setVisible_same (v : bool) (inp : Input.t) (w : World) :
  visible_ inp = v ->
  setVisible v (inp, w) = Some (Return [], (inp, w)).
Proof.
  intros H. unfold setVisible. js_run. rewrite H.
  by destruct v.
Qed.

Lemma setVisible_same_witness :
  setVisible true (sample_input, sample_world)
  = Some (Return [], (sample_input, sample_world)).
Proof. apply setVisible_same. reflexivity. Defined.

(** A change of visibility on an input with a connection. *)
Lemma setVisible_run (v : bool) (inp : Input.t) (w : World) (c : ref)
    (k : Connection.t) :
  visible_ inp = negb v ->
  connection inp = Some c ->
  connections w !! c = Some k ->
  (forall child, Connection.targetBlock k = Some child -> is_Some (blocks w !! child)) ->
  exists w',
    setVisible v (inp, w)
    = Some (Return (if v then Connection.unhidden k else []), (set_visible_ v inp, w'))
    /\ trace w' = trace w ++ map (fun f => FieldSetVisible f v) (fieldRow inp)
                  ++ [if v then ConnUnhideAll c else ConnHideAll c]
    /\ fields w' = fields w /\ connections w' = connections w
    /\ blocks w' = match Connection.targetBlock k with
                   | Some child =>
                       match blocks w !! child with
                       | Some o => <[child := toggled v o]> (blocks w)
                       | None => blocks w
                       end
                   | None => blocks w
                   end.
Proof.
  intros Hv Hc Hk Hchild.
  unfold setVisible. js_run. rewrite Hv.
  replace (Bool.eqb (negb v) v) with false by (by destruct v).
  js_run. rewrite setVisible_fields_run. js_run. rewrite Hc.
  destruct v; js_run; rewrite Hk; js_run.
  - rewrite Hk. js_run.
    destruct (Connection.targetBlock k) as [child|] eqn:Ht; js_run.
    + destruct (Hchild child eq_refl) as [o Ho]. rewrite Ho. js_run.
      eexists. split; [reflexivity |]. simpl.
      by rewrite <- app_assoc.
    + eexists. split; [reflexivity |]. simpl. by rewrite <- app_assoc.
  - destruct (Connection.targetBlock k) as [child|] eqn:Ht; js_run.
    + destruct (Hchild child eq_refl) as [o Ho]. rewrite Ho. js_run.
      rewrite lookup_insert_eq. js_run.
      eexists. split; [reflexivity |]. simpl. rewrite insert_insert_eq.
      by rewrite <- app_assoc.
    + eexists. split; [reflexivity |]. simpl. by rewrite <- app_assoc.
Qed.

(** X2: showing a hidden input that owns a connection calls
    [setVisible(true)] on every field, then [unhideAll()] on the
    connection, and returns the list [unhideAll()] gave; a linked
    child gets display [block], and its [rendered] flag is left as it
    was. *)
Theorem setVisible_true_spec (inp : Input.t) (w : World) (c : ref)
    (k : Connection.t) :
  visible_ inp = false ->
  connection inp = Some c ->
  connections w !! c = Some k ->
  (forall child, Connection.targetBlock k = Some child -> is_Some (blocks w !! child)) ->
  exists w',
    setVisible true (inp, w)
    = Some (Return (Connection.unhidden k), (set_visible_ true inp, w'))
    /\ trace w' = trace w ++ map (fun f => FieldSetVisible f true) (fieldRow inp)
                  ++ [ConnUnhideAll c]
    /\ (forall child o,
          Connection.targetBlock k = Some child -> blocks w !! child = Some o ->
          blocks w' !! child = Some (Block.mk (Block.rendered o) "block"))
    /\ (Connection.targetBlock k = None -> blocks w' = blocks w).
Proof.
  intros Hv Hc Hk Hchild.
  destruct (setVisible_run true inp w c k Hv Hc Hk Hchild)
    as (w' & Hrun & Htr & _ & _ & Hbl).
  exists w'. split; [exact Hrun |]. split; [exact Htr |]. split.
  - intros child o Ht Ho. rewrite Hbl, Ht, Ho. by rewrite lookup_insert_eq.
  - intros Ht. by rewrite Hbl, Ht.
Qed.

Lemma setVisible_true_spec_witness :
  exists w',
    setVisible true (hidden_input, hidden_world)
    = Some (Return [2%positive], (set_visible_ true hidden_input, w'))
    /\ trace w' = [FieldSetVisible 1%positive true; ConnUnhideAll 1%positive]
    /\ blocks w' !! 2%positive = Some (Block.mk false "block").
Proof.
  destruct (setVisible_true_spec hidden_input hidden_world 1%positive
              (Connection.mk CheckNull (Some 2%positive) [2%positive]))
    as (w' & Hrun & Htr & Hchild & _);
    [reflexivity | reflexivity | reflexivity
    | intros child [= <-]; eexists; reflexivity |].
  exists w'. split; [exact Hrun |]. split; [exact Htr |].
  apply (Hchild 2%positive (Block.mk false "none")); reflexivity.
Defined.

(** X3: hiding and then showing a visible input whose connection is
    linked to a child gives back the receiver as it was and the child's
    display [block], and returns what [unhideAll()] reports; but the
    child stays marked as not rendered, whatever it was before. *)
Theorem setVisible_hide_show (inp : Input.t) (w : World) (c child : ref)
    (k : Connection.t) (o : Block.t) :
  visible_ inp = true ->
  connection inp = Some c ->
  connections w !! c = Some k ->
  Connection.targetBlock k = Some child ->
  blocks w !! child = Some o ->
  exists w',
    (setVisible false;; setVisible true) (inp, w)
    = Some (Return (Connection.unhidden k), (inp, w'))
    /\ blocks w' = <[child := Block.mk false "block"]> (blocks w)
    /\ fields w' = fields w /\ connections w' = connections w
    /\ trace w' = trace w
         ++ map (fun f => FieldSetVisible f false) (fieldRow inp) ++ [ConnHideAll c]
         ++ map (fun f => FieldSetVisible f true) (fieldRow inp) ++ [ConnUnhideAll c].
Proof.
  intros Hv Hc Hk Ht Ho.
  destruct (setVisible_run false inp w c k) as (w1 & Hrun1 & Htr1 & Hf1 & Hc1 & Hb1);
    try done.
  { intros ch Hch. assert (ch = child) as -> by congruence. by exists o. }
  rewrite Ht, Ho in Hb1.
  destruct (setVisible_run true (set_visible_ false inp) w1 c k)
    as (w2 & Hrun2 & Htr2 & Hf2 & Hc2 & Hb2); try done.
  { by rewrite Hc1. }
  { intros ch Hch. assert (ch = child) as -> by congruence.
    rewrite Hb1, lookup_insert_eq. by eexists. }
  rewrite Ht, Hb1, lookup_insert_eq, insert_insert_eq in Hb2.
  exists w2. split; [| split; [exact Hb2 | split; [congruence | split; [congruence |]]]].
  - unfold bind at 1. rewrite Hrun1, Hrun2. do 3 f_equal.
    destruct inp; simpl in *; by subst.
  - rewrite Htr2, Htr1. simpl. by rewrite <- !app_assoc.
Qed.

Lemma setVisible_hide_show_witness :
  exists w',
    (setVisible false;; setVisible true) (sample_input, linked_world)
    = Some (Return [2%positive], (sample_input, w'))
    /\ blocks w' = <[2%positive := Block.mk false "block"]> (blocks linked_world)
    /\ fields w' = fields linked_world /\ connections w' = connections linked_world
    /\ trace w' = [FieldSetVisible 1%positive false; ConnHideAll 1%positive;
                   FieldSetVisible 1%positive true; ConnUnhideAll 1%positive].
Proof.
  apply (setVisible_hide_show sample_input linked_world 1%positive 2%positive
           linked_connection (Block.mk true "block")); reflexivity.
Defined.

Lemma setVisible_receiver (v : bool) (inp inp' : Input.t) (w w' : World)
    (l : list ref) :
  setVisible v (inp, w) = Some (Return l, (inp', w')) ->
  inp' = set_visible_ v inp.
Proof.
  unfold setVisible. js_run.
  destruct (Bool.eqb (visible_ inp) v) eqn:Hv.
  - intros [= <- <- <-]. apply Bool.eqb_prop in Hv. rewrite <- Hv.
    by destruct inp.
  - js_run. rewrite setVisible_fields_run. js_run.
    destruct (connection inp) as [c|]; js_run.
    + destruct (connections w !! c) as [k|] eqn:Hk.
      2: { destruct v; js_run; rewrite Hk; js_run; intros [=]. }
      destruct v; js_run; rewrite Hk; js_run; rewrite ?Hk; js_run.
      * destruct (Connection.targetBlock k) as [child|]; js_run.
        -- destruct (blocks w !! child) as [o|]; js_run; [| intros [=]].
           by intros [= <- <- <-].
        -- by intros [= <- <- <-].
      * destruct (Connection.targetBlock k) as [child|]; js_run.
        -- destruct (blocks w !! child) as [o|]; js_run; [| intros [=]].
           rewrite lookup_insert_eq. js_run. by intros [= <- <- <-].
        -- by intros [= <- <- <-].
    + by intros [= <- <- <-].
Qed.

(** X4: whenever [setVisible(v)] returns, [isVisible()] answers [v],
    and nothing of the receiver but the visibility flag has changed. *)
Theorem isVisible_after_setVisible (v : bool) (inp inp' : Input.t) (w w' : World)
    (l : list ref) :
  setVisible v (inp, w) = Some (Return l, (inp', w')) ->
  isVisible (inp', w') = Some (Return v, (inp', w'))
  /\ inp' = set_visible_ v inp.
Proof.
  intros H. apply setVisible_receiver in H. subst inp'. split; reflexivity.
Qed.

Lemma isVisible_after_setVisible_witness :
  isVisible (set_visible_ false sample_input,
             logs [FieldSetVisible 1%positive false; ConnHideAll 1%positive] sample_world)
  = Some (Return false,
          (set_visible_ false sample_input,
           logs [FieldSetVisible 1%positive false; ConnHideAll 1%positive] sample_world))
  /\ set_visible_ false sample_input = set_visible_ false sample_input.
Proof.
  apply (isVisible_after_setVisible false sample_input _ sample_world _ []).
  reflexivity.
Defined.

(** ** Inserting and removing plain fields *)

Lemma insert_nested_falsy fuel index p s :
  truthy p = false -> insert_nested fuel index p s = Some (Return index, s).
Proof. intros H. unfold insert_nested. by rewrite H. Qed.

(** The body of [insertFieldAt] on an object that declares neither a
    prefix nor a suffix. *)
Lemma insert_resolved_plain fuel inp w l1 l2 r o nm b bo :
  sourceBlock_ inp = JObj b -> blocks w !! b = Some bo ->
  fieldRow inp = l1 ++ l2 ->
  simple_field w r o ->
  exists w',
    insert_resolved fuel (Z.of_nat (length l1)) r nm (inp, w)
    = Some (Return (RetIndex (Z.of_nat (length l1) + 1)),
            (set_fieldRow (l1 ++ r :: l2) inp, w'))
    /\ fields w' = <[r := Field.set_name nm o]> (fields w)
    /\ blocks w' = blocks w /\ connections w' = connections w
    /\ trace w' = trace w
         ++ FieldSetSourceBlock r (JObj b)
            :: (if Block.rendered bo then [FieldInit r] else [])
         ++ render_events b bo.
Proof.
  intros Hb Hbo Hrow (Hr & Hp & Hs).
  pose (wa := if Block.rendered bo
              then log (FieldInit r) (log (FieldSetSourceBlock r (JObj b)) w)
              else log (FieldSetSourceBlock r (JObj b)) w).
  assert (Hfa : fields wa = fields w) by (unfold wa; by destruct (Block.rendered bo)).
  assert (Hba : blocks wa = blocks w) by (unfold wa; by destruct (Block.rendered bo)).
  assert (Hca : connections wa = connections w)
    by (unfold wa; by destruct (Block.rendered bo)).
  assert (Hta : trace wa = trace w ++ FieldSetSourceBlock r (JObj b)
                           :: (if Block.rendered bo then [FieldInit r] else [])).
  { unfold wa. destruct (Block.rendered bo); simpl; by rewrite <- ?app_assoc. }
  eexists. split.
  - unfold insert_resolved.
    js_run. rewrite Hb. js_run. rewrite Hbo. js_run.
    rewrite when_emit. js_run. fold wa.
    rewrite Hfa, Hr. js_run. rewrite Hfa, lookup_insert_eq. js_run.
    rewrite insert_nested_falsy by done. js_run.
    rewrite Hrow, splice_insert_at.
    rewrite lookup_insert_eq. js_run.
    rewrite insert_nested_falsy by done. js_run.
    rewrite (renderAndBump_run _ _ b bo); [| done | simpl; by rewrite Hba].
    js_run. reflexivity.
  - simpl. rewrite Hba, Hca, Hta. repeat split. by rewrite <- app_assoc.
Qed.

Lemma insertFieldAt_unfold' fuel index field opt_name inp w :
  0 <= index <= Z.of_nat (length (fieldRow inp)) ->
  negb (truthy field) && negb (truthy_name opt_name) = false ->
  insertFieldAt (S fuel) index field opt_name (inp, w)
  = (r <- toField field;; insert_resolved fuel index r opt_name) (inp, w).
Proof.
  intros H Ht. simpl. unfold bind at 1. simpl.
  assert ((index <? 0) || (index >? Z.of_nat (length (fieldRow inp))) = false) as ->.
  { apply orb_false_iff. split; lia. }
  rewrite Ht. reflexivity.
Qed.

(** Inserting a field object that declares neither prefix nor
    suffix. *)
Lemma insertFieldAt_plain fuel inp w i f o nm b bo :
  sourceBlock_ inp = JObj b -> blocks w !! b = Some bo ->
  0 <= i <= Z.of_nat (length (fieldRow inp)) ->
  simple_field w f o ->
  exists w',
    insertFieldAt (S fuel) i (AField f) nm (inp, w)
    = Some (Return (RetIndex (i + 1)),
            (set_fieldRow (take (Z.to_nat i) (fieldRow inp) ++ f
                           :: drop (Z.to_nat i) (fieldRow inp)) inp, w'))
    /\ fields w' = <[f := Field.set_name nm o]> (fields w)
    /\ blocks w' = blocks w /\ connections w' = connections w
    /\ trace w' = trace w
         ++ FieldSetSourceBlock f (JObj b)
            :: (if Block.rendered bo then [FieldInit f] else [])
         ++ render_events b bo.
Proof.
  intros Hb Hbo Hi Hf.
  destruct (row_split (fieldRow inp) i Hi) as [Hrow Hlen].
  destruct (insert_resolved_plain fuel inp w _ _ f o nm b bo Hb Hbo Hrow Hf)
    as (w' & Hrun & Hw').
  rewrite Hlen in Hrun.
  exists w'. split; [| exact Hw'].
  rewrite insertFieldAt_unfold by done. simpl toField. js_run. exact Hrun.
Qed.

(** X5: inserting one plain field at index [i] and then another at the
    same index leaves the second at [i] and the first at [i + 1], the
    old entries keeping their order around them. *)
Theorem insertFieldAt_twice (fuel : nat) (inp : Input.t) (w : World) (i : Z)
    (f1 f2 : ref) (o1 o2 : Field.t) (n1 n2 : option string)
    (b : ref) (bo : Block.t) :
  sourceBlock_ inp = JObj b -> blocks w !! b = Some bo ->
  0 <= i <= Z.of_nat (length (fieldRow inp)) ->
  simple_field w f1 o1 -> simple_field w f2 o2 ->
  exists inp' w',
    (insertFieldAt (S fuel) i (AField f1) n1;;
     insertFieldAt (S fuel) i (AField f2) n2) (inp, w)
    = Some (Return (RetIndex (i + 1)), (inp', w'))
    /\ fieldRow inp'
       = take (Z.to_nat i) (fieldRow inp) ++ f2 :: f1 :: drop (Z.to_nat i) (fieldRow inp)
    /\ fieldRow inp' !! Z.to_nat i = Some f2
    /\ fieldRow inp' !! Z.to_nat (i + 1) = Some f1.
Proof.
  intros Hb Hbo Hi Hf1 Hf2.
  destruct (insertFieldAt_plain fuel inp w i f1 o1 n1 b bo Hb Hbo Hi Hf1)
    as (w1 & Hrun1 & Hfld1 & Hbl1 & _).
  destruct (row_split (fieldRow inp) i Hi) as [Hrow Hlen].
  set (l1 := take (Z.to_nat i) (fieldRow inp)) in *.
  set (l2 := drop (Z.to_nat i) (fieldRow inp)) in *.
  assert (Hf2' : exists o2', simple_field w1 f2 o2').
  { destruct Hf2 as (H2 & Hp2 & Hs2). destruct Hf1 as (H1 & Hp1 & Hs1).
    unfold simple_field. rewrite Hfld1.
    destruct (decide (f1 = f2)) as [<-|Hne].
    - rewrite lookup_insert_eq. eexists. split; [done |]. simpl.
      assert (o2 = o1) as -> by congruence. done.
    - rewrite lookup_insert_ne by done. by exists o2. }
  destruct Hf2' as [o2' Hf2'].
  destruct (insert_resolved_plain fuel (set_fieldRow (l1 ++ f1 :: l2) inp) w1
              l1 (f1 :: l2) f2 o2' n2 b bo)
    as (w2 & Hrun2 & _); try done.
  { by rewrite Hbl1. }
  rewrite Hlen in Hrun2.
  exists (set_fieldRow (l1 ++ f2 :: f1 :: l2) inp), w2.
  assert (Hl1 : length l1 = Z.to_nat i) by lia.
  split; [| split; [done | split]].
  - unfold bind at 1. rewrite Hrun1.
    rewrite insertFieldAt_unfold; [| simpl; rewrite length_app; simpl; lia | done].
    simpl toField. js_run. exact Hrun2.
  - simpl. rewrite lookup_app_r by lia. by rewrite Hl1, Nat.sub_diag.
  - simpl. rewrite lookup_app_r by lia.
    replace (Z.to_nat (i + 1) - length l1)%nat with 1%nat by lia. done.
Qed.

Lemma insertFieldAt_twice_witness :
  exists inp' w',
    (insertFieldAt 1 1 (AField 1%positive) None;;
     insertFieldAt 1 1 (AField 2%positive) None) (row_input, plain_world)
    = Some (Return (RetIndex (1 + 1)), (inp', w'))
    /\ fieldRow inp' = take (Z.to_nat 1) (fieldRow row_input) ++ 2%positive :: 1%positive
                       :: drop (Z.to_nat 1) (fieldRow row_input)
    /\ fieldRow inp' !! Z.to_nat 1 = Some 2%positive
    /\ fieldRow inp' !! Z.to_nat (1 + 1) = Some 1%positive.
Proof.
  apply (insertFieldAt_twice 0 row_input plain_world 1 1%positive 2%positive
           (Field.mk None AUndefined AUndefined "a")
           (Field.mk None AUndefined AUndefined "b") None None
           1%positive (Block.mk true "block"));
    [reflexivity | reflexivity | simpl; lia | repeat split | repeat split].
Defined.

(** X6: inserting a plain field that is not in the row yet, under a
    name no field of the row carries, and then removing the field of
    that name gives back the receiver exactly as it was; the field
    keeps the name and has been disposed once. *)
Theorem insert_then_remove (fuel : nat) (inp : Input.t) (w : World) (i : Z)
    (f : ref) (o : Field.t) (n : string) (b : ref) (bo : Block.t) :
  sourceBlock_ inp = JObj b -> blocks w !! b = Some bo ->
  0 <= i <= Z.of_nat (length (fieldRow inp)) ->
  simple_field w f o ->
  f ∉ fieldRow inp ->
  Forall (not_named w n) (fieldRow inp) ->
  exists w',
    (insertFieldAt (S fuel) i (AField f) (Some n);; removeField n) (inp, w)
    = Some (Return tt, (inp, w'))
    /\ fields w' = <[f := Field.set_name (Some n) o]> (fields w)
    /\ trace w' = trace w
         ++ (FieldSetSourceBlock f (JObj b)
             :: (if Block.rendered bo then [FieldInit f] else [])
            ++ render_events b bo)
         ++ FieldDispose f :: render_events b bo.
Proof.
  intros Hb Hbo Hi Hf Hnin Hrow.
  destruct (insertFieldAt_plain fuel inp w i f o (Some n) b bo Hb Hbo Hi Hf)
    as (w1 & Hrun1 & Hfld1 & Hbl1 & _ & Htr1).
  destruct (row_split (fieldRow inp) i Hi) as [Hsplit _].
  set (l1 := take (Z.to_nat i) (fieldRow inp)) in *.
  set (l2 := drop (Z.to_nat i) (fieldRow inp)) in *.
  assert (Hl1 : Forall (not_named w1 n) l1).
  { rewrite Hsplit in Hrow, Hnin. apply Forall_app in Hrow as [Hrow _].
    apply not_elem_of_app in Hnin as [Hnin _].
    rewrite Forall_forall in Hrow |- *. intros x Hx.
    destruct (Hrow x Hx) as (ox & Hox & Hnx). exists ox. split; [| done].
    rewrite Hfld1, lookup_insert_ne; [done |]. intros <-. done. }
  assert (Hnamed : named w1 n f).
  { exists (Field.set_name (Some n) o). split; [| done].
    by rewrite Hfld1, lookup_insert_eq. }
  eexists. split; [| split].
  - unfold bind at 1. rewrite Hrun1.
    unfold removeField. js_run.
    rewrite (removeField_from_skip n _ w1 l1 (f :: l2) 0 Hl1).
    rewrite (removeField_from_hit n _ w1 f l2 _ b bo Hnamed); [| done | by rewrite Hbl1].
    simpl. rewrite delete_middle, <- Hsplit.
    destruct inp; reflexivity.
  - simpl. exact Hfld1.
  - simpl. rewrite Htr1. rewrite <- (app_assoc (trace w)). reflexivity.
Qed.

Lemma insert_then_remove_witness :
  exists w',
    (insertFieldAt 1 0 (AField 1%positive) (Some "N"%string);; removeField "N")
      (row_input, plain_world)
    = Some (Return tt, (row_input, w'))
    /\ fields w' = <[1%positive := Field.set_name (Some "N"%string)
                                     (Field.mk None AUndefined AUndefined "a")]>
                     (fields plain_world)
    /\ trace w' = trace plain_world
         ++ (FieldSetSourceBlock 1%positive (JObj 1%positive)
             :: [FieldInit 1%positive]
            ++ render_events 1%positive (Block.mk true "block"))
         ++ FieldDispose 1%positive :: render_events 1%positive (Block.mk true "block").
Proof.
  apply (insert_then_remove 0 row_input plain_world 0 1%positive
           (Field.mk None AUndefined AUndefined "a") "N" 1%positive
           (Block.mk true "block"));
    [reflexivity | reflexivity | simpl; lia | repeat split | | ].
  - intros H. apply list_elem_of_singleton in H. discriminate H.
  - constructor; [| constructor].
    eexists. split; [reflexivity | discriminate].
Defined.

(** X7: when exactly one entry of the row carries the name,
    [removeField] removes it, and a second [removeField] of the same
    name fails with the not-found assertion and changes nothing
    more. *)
Theorem removeField_then_missing (n : string) (inp : Input.t) (w : World)
    (pre post : list ref) (f : ref) (b : ref) (bo : Block.t) :
  sourceBlock_ inp = JObj b -> blocks w !! b = Some bo ->
  fieldRow inp = pre ++ f :: post ->
  Forall (not_named w n) pre -> named w n f -> Forall (not_named w n) post ->
  removeField n (inp, w)
  = Some (Return tt, (set_fieldRow (pre ++ post) inp,
                      logs (FieldDispose f :: render_events b bo) w))
  /\ (removeField n;; removeField n) (inp, w)
     = Some (Throw (FieldNotFound n),
             (set_fieldRow (pre ++ post) inp,
              logs (FieldDispose f :: render_events b bo) w)).
Proof.
  intros Hb Hbo Hrow Hpre Hf Hpost.
  assert (Hfirst : removeField n (inp, w)
    = Some (Return tt, (set_fieldRow (pre ++ post) inp,
                        logs (FieldDispose f :: render_events b bo) w))).
  { unfold removeField. js_run. rewrite Hrow.
    rewrite removeField_from_skip by done.
    rewrite (removeField_from_hit _ _ _ _ _ _ b bo) by done.
    rewrite Hrow. simpl. by rewrite delete_middle. }
  split; [exact Hfirst |].
  unfold bind at 1. rewrite Hfirst.
  unfold removeField. js_run.
  rewrite <- (app_nil_r (pre ++ post)).
  rewrite removeField_from_skip; [reflexivity |].
  apply Forall_app. split; [exact Hpre | exact Hpost].
Qed.

Lemma removeField_then_missing_witness :
  removeField "NUM" (sample_input, sample_world)
  = Some (Return tt, (set_fieldRow ([] ++ []) sample_input,
                      logs (FieldDispose 1%positive :: render_events 1%positive sample_block)
                        sample_world))
  /\ (removeField "NUM";; removeField "NUM") (sample_input, sample_world)
     = Some (Throw (FieldNotFound "NUM"),
             (set_fieldRow ([] ++ []) sample_input,
              logs (FieldDispose 1%positive :: render_events 1%positive sample_block)
                sample_world)).
Proof.
  apply (removeField_then_missing "NUM" sample_input sample_world [] [] 1%positive
           1%positive sample_block);
    [reflexivity | reflexivity | reflexivity | constructor | | constructor].
  eexists. split; reflexivity.
Defined.

(** X8: the empty string with a name is inserted as a new, empty label
    carrying that name; [null] or [undefined] with a name is not: the
    call throws a TypeError and leaves the receiver and the store as
    they were. *)
Theorem insertFieldAt_named_falsy (fuel : nat) (inp : Input.t) (w : World) (i : Z)
    (n : string) (b : ref) (bo : Block.t) :
  n <> EmptyString ->
  0 <= i <= Z.of_nat (length (fieldRow inp)) ->
  (sourceBlock_ inp = JObj b -> blocks w !! b = Some bo ->
   exists r w',
     insertFieldAt (S fuel) i (AString "") (Some n) (inp, w)
     = Some (Return (RetIndex (i + 1)),
             (set_fieldRow (take (Z.to_nat i) (fieldRow inp) ++ r
                            :: drop (Z.to_nat i) (fieldRow inp)) inp, w'))
     /\ fields w !! r = None
     /\ fields w' = <[r := Field.set_name (Some n) (FieldLabel "")]> (fields w))
  /\ insertFieldAt (S fuel) i ANull (Some n) (inp, w) = Some (Throw TypeError, (inp, w))
  /\ insertFieldAt (S fuel) i AUndefined (Some n) (inp, w)
     = Some (Throw TypeError, (inp, w)).
Proof.
  intros Hn Hi.
  assert (Hname : truthy_name (Some n) = true) by (simpl; by apply bool_decide_eq_true_2).
  split; [| split].
  - intros Hb Hbo.
    destruct (row_split (fieldRow inp) i Hi) as [Hrow Hlen].
    pose (r := fresh (dom (fields w))).
    pose (w0 := set_fields (<[r := FieldLabel ""]> (fields w)) w).
    assert (Hfresh : fields w !! r = None) by (apply not_elem_of_dom, is_fresh).
    destruct (insert_resolved_plain fuel inp w0 _ _ r (FieldLabel "") (Some n) b bo
                Hb Hbo Hrow)
      as (w' & Hrun & Hfld & _).
    { split; [apply lookup_insert_eq | done]. }
    rewrite Hlen in Hrun.
    exists r, w'. split; [| split; [done |]].
    + rewrite insertFieldAt_unfold'; [| done | by rewrite Hname, andb_false_r].
      simpl toField. js_run. exact Hrun.
    + rewrite Hfld. unfold w0. simpl. by rewrite insert_insert_eq.
  - rewrite insertFieldAt_unfold'; [reflexivity | done | by rewrite Hname, andb_false_r].
  - rewrite insertFieldAt_unfold'; [reflexivity | done | by rewrite Hname, andb_false_r].
Qed.

Lemma insertFieldAt_named_falsy_witness :
  (exists r w',
     insertFieldAt 1 0 (AString "") (Some "GAP"%string) (row_input, plain_world)
     = Some (Return (RetIndex (0 + 1)),
             (set_fieldRow (take (Z.to_nat 0) (fieldRow row_input) ++ r
                            :: drop (Z.to_nat 0) (fieldRow row_input)) row_input, w'))
     /\ fields plain_world !! r = None
     /\ fields w' = <[r := Field.set_name (Some "GAP"%string) (FieldLabel "")]>
                      (fields plain_world))
  /\ insertFieldAt 1 0 ANull (Some "GAP"%string) (row_input, plain_world)
     = Some (Throw TypeError, (row_input, plain_world))
  /\ insertFieldAt 1 0 AUndefined (Some "GAP"%string) (row_input, plain_world)
     = Some (Throw TypeError, (row_input, plain_world)).
Proof.
  destruct (insertFieldAt_named_falsy 0 row_input plain_world 0 "GAP" 1%positive
              (Block.mk true "block")) as (H1 & H2 & H3);
    [discriminate | simpl; lia |].
  split; [apply H1; reflexivity | split; [exact H2 | exact H3]].
Defined.

(** ** After [dispose] *)

(** X9: on a disposed input the operations that consult the owning
    block fail with a TypeError.  [insertFieldAt] on a field object
    fails after telling the field that its block is null, the row being
    unchanged; [setAlign] fails after having stored the alignment. *)
Theorem after_dispose_fails (fuel : nat) (inp : Input.t) (w : World) (i : Z)
    (f : ref) (nm : option string) (a : Align) :
  0 <= i <= Z.of_nat (length (fieldRow inp)) ->
  (dispose;; insertFieldAt (S fuel) i (AField f) nm) (inp, w)
  = Some (Throw TypeError,
          (set_sourceBlock_ JNull inp,
           logs (dispose_events inp ++ [FieldSetSourceBlock f JNull]) w))
  /\ (dispose;; setAlign a) (inp, w)
     = Some (Throw TypeError,
             (set_align a (set_sourceBlock_ JNull inp), logs (dispose_events inp) w)).
Proof.
  intros Hi. split.
  - unfold bind at 1. rewrite dispose_run.
    rewrite insertFieldAt_unfold' by done.
    simpl toField. js_run. unfold insert_resolved. js_run.
    by rewrite log_logs, logs_logs.
  - unfold bind at 1. rewrite dispose_run. reflexivity.
Qed.

Lemma after_dispose_fails_witness :
  (dispose;; insertFieldAt 1 1 (AField 1%positive) None) (sample_input, sample_world)
  = Some (Throw TypeError,
          (set_sourceBlock_ JNull sample_input,
           logs (dispose_events sample_input ++ [FieldSetSourceBlock 1%positive JNull])
             sample_world))
  /\ (dispose;; setAlign ALIGN_RIGHT) (sample_input, sample_world)
     = Some (Throw TypeError,
             (set_align ALIGN_RIGHT (set_sourceBlock_ JNull sample_input),
              logs (dispose_events sample_input) sample_world)).
Proof.
  apply (after_dispose_fails 0 sample_input sample_world 1 1%positive None ALIGN_RIGHT).
  simpl. lia.
Defined.

(** X10: [removeField] on a disposed input that still holds a field of
    that name fails with a TypeError only after it has disposed the
    field (again) and removed it from the row. *)
Theorem removeField_after_dispose (n : string) (inp : Input.t) (w : World)
    (pre post : list ref) (f : ref) :
  fieldRow inp = pre ++ f :: post ->
  Forall (not_named w n) pre -> named w n f ->
  (dispose;; removeField n) (inp, w)
  = Some (Throw TypeError,
          (set_fieldRow (pre ++ post) (set_sourceBlock_ JNull inp),
           logs (dispose_events inp ++ [FieldDispose f]) w)).
Proof.
  intros Hrow Hpre (o & Ho & Hn).
  unfold bind at 1. rewrite dispose_run.
  unfold removeField. js_run. rewrite Hrow.
  rewrite removeField_from_skip by done.
  simpl. js_run. rewrite Ho. js_run.
  rewrite bool_decide_eq_true_2 by done. js_run.
  unfold renderAndBump. js_run.
  rewrite Hrow, delete_middle. by rewrite log_logs, logs_logs.
Qed.

Lemma removeField_after_dispose_witness :
  (dispose;; removeField "NUM") (sample_input, sample_world)
  = Some (Throw TypeError,
          (set_fieldRow ([] ++ []) (set_sourceBlock_ JNull sample_input),
           logs (dispose_events sample_input ++ [FieldDispose 1%positive]) sample_world)).
Proof.
  apply (removeField_after_dispose "NUM" sample_input sample_world [] [] 1%positive);
    [reflexivity | constructor | eexists; split; reflexivity].
Defined.

(** X11: disposal does not stop [setCheck]: on a disposed input that
    had a connection the call still returns the receiver and replaces
    the accepted types of the (disposed) connection. *)
Theorem setCheck_after_dispose (check : Check) (inp : Input.t) (w : World)
    (c : ref) (k : Connection.t) :
  connection inp = Some c -> connections w !! c = Some k ->
  (dispose;; setCheck check) (inp, w)
  = Some (Return RetThis,
          (set_sourceBlock_ JNull inp,
           set_connections (<[c := Connection.set_check check k]> (connections w))
             (logs (dispose_events inp ++ [ConnSetCheck c check]) w))).
Proof.
  intros Hc Hk. unfold bind at 1. rewrite dispose_run.
  unfold setCheck. js_run. rewrite Hc. js_run. rewrite Hk. js_run.
  by rewrite log_logs, logs_logs.
Qed.

Lemma setCheck_after_dispose_witness :
  (dispose;; setCheck CheckNull) (sample_input, sample_world)
  = Some (Return RetThis,
          (set_sourceBlock_ JNull sample_input,
           set_connections
             (<[1%positive := Connection.set_check CheckNull sample_connection]>
                (connections sample_world))
             (logs (dispose_events sample_input ++ [ConnSetCheck 1%positive CheckNull])
                sample_world))).
Proof.
  apply (setCheck_after_dispose CheckNull sample_input sample_world 1%positive
           sample_connection); reflexivity.
Defined.

(** X12: a second [dispose] leaves the receiver as the first one left
    it, but repeats every call: the outline is removed again, every
    field and the connection are disposed again. *)
Theorem dispose_twice (inp : Input.t) (w : World) :
  (dispose;; dispose) (inp, w)
  = Some (Return tt,
          (set_sourceBlock_ JNull inp,
           logs (dispose_events inp ++ dispose_events inp) w)).
Proof.
  unfold bind at 1. rewrite dispose_run, dispose_run.
  by rewrite logs_logs.
Qed.

(** ** [setAlign] *)

(** X13: [setAlign] stores the alignment and returns the receiver,
    touching nothing else of it; it re-renders a rendered block and
    never notifies the neighbours. *)
Theorem setAlign_spec (a : Align) (inp : Input.t) (w : World) (b : ref)
    (bo : Block.t) :
  sourceBlock_ inp = JObj b -> blocks w !! b = Some bo ->
  setAlign a (inp, w)
  = Some (Return RetThis,
          (set_align a inp,
           logs (if Block.rendered bo then [BlockRender b] else []) w))
  /\ (setAlign ALIGN_LEFT;; setAlign a) (inp, w)
     = Some (Return RetThis,
             (set_align a inp,
              logs (if Block.rendered bo then [BlockRender b; BlockRender b] else []) w)).
Proof.
  intros Hb Hbo.
  assert (Hone : forall a' inp' w', sourceBlock_ inp' = JObj b -> blocks w' !! b = Some bo ->
    setAlign a' (inp', w')
    = Some (Return RetThis,
            (set_align a' inp',
             logs (if Block.rendered bo then [BlockRender b] else []) w'))).
  { intros a' inp' w' Hb' Hbo'. unfold setAlign. js_run. rewrite Hb'. js_run.
    rewrite Hbo'. js_run. unfold when.
    destruct (Block.rendered bo); js_run.
    - rewrite Hb'. js_run. reflexivity.
    - by rewrite logs_nil. }
  split; [by apply Hone |].
  unfold bind at 1. rewrite Hone by done. rewrite Hone by done.
  rewrite logs_logs. by destruct (Block.rendered bo).
Qed.

Lemma setAlign_spec_witness :
  setAlign ALIGN_CENTRE (nested_input, nested_world)
  = Some (Return RetThis,
          (set_align ALIGN_CENTRE nested_input, logs [BlockRender 1%positive] nested_world))
  /\ (setAlign ALIGN_LEFT;; setAlign ALIGN_CENTRE) (nested_input, nested_world)
     = Some (Return RetThis,
             (set_align ALIGN_CENTRE nested_input,
              logs [BlockRender 1%positive; BlockRender 1%positive] nested_world)).
Proof.
  apply (setAlign_spec ALIGN_CENTRE nested_input nested_world 1%positive
           (Block.mk true "block")); reflexivity.
Defined.

(** ** [init] and [initOutlinePath] *)

Lemma init_fields_run row i w :
  init_fields row (i, w) = Some (Return tt, (i, logs (map FieldInit row) w)).
Proof.
  revert w. induction row as [|f row IH]; intros w; simpl.
  - by rewrite logs_nil.
  - js_run. rewrite IH. by rewrite logs_log.
Qed.

(** X14: [init] does nothing on a block whose workspace is not
    rendered; on a rendered workspace it calls [init] on every field of
    the row, once, in row order; and it throws a TypeError when the
    input has no block (after disposal) or the block no workspace. *)
Theorem init_spec (ws : ref -> option bool) (inp : Input.t) (w : World) :
  (forall b, sourceBlock_ inp = JObj b -> ws b = Some false ->
     init ws (inp, w) = Some (Return tt, (inp, w)))
  /\ (forall b, sourceBlock_ inp = JObj b -> ws b = Some true ->
     init ws (inp, w) = Some (Return tt, (inp, logs (map FieldInit (fieldRow inp)) w)))
  /\ (forall b, sourceBlock_ inp = JObj b -> ws b = None ->
     init ws (inp, w) = Some (Throw TypeError, (inp, w)))
  /\ ((sourceBlock_ inp = JNull \/ sourceBlock_ inp = JUndefined) ->
     init ws (inp, w) = Some (Throw TypeError, (inp, w))).
Proof.
  unfold init, sourceWorkspaceRendered. repeat split.
  - intros b Hb Hws. js_run. rewrite Hb. js_run. by rewrite Hws.
  - intros b Hb Hws. js_run. rewrite Hb. js_run. rewrite Hws. js_run.
    apply init_fields_run.
  - intros b Hb Hws. js_run. rewrite Hb. js_run. by rewrite Hws.
  - intros [H | H]; js_run; by rewrite H.
Qed.

Lemma init_spec_witness :
  init (fun _ => Some false) (sample_input, sample_world)
  = Some (Return tt, (sample_input, sample_world))
  /\ init (fun _ => Some true) (sample_input, sample_world)
     = Some (Return tt, (sample_input, logs [FieldInit 1%positive] sample_world))
  /\ init (fun _ => None) (sample_input, sample_world)
     = Some (Throw TypeError, (sample_input, sample_world))
  /\ init (fun _ => Some true) (set_sourceBlock_ JNull sample_input, sample_world)
     = Some (Throw TypeError, (set_sourceBlock_ JNull sample_input, sample_world)).
Proof.
  split; [| split; [| split]].
  - apply (proj1 (init_spec (fun _ => Some false) sample_input sample_world) 1%positive);
      reflexivity.
  - apply (proj1 (proj2 (init_spec (fun _ => Some true) sample_input sample_world))
             1%positive); reflexivity.
  - apply (proj1 (proj2 (proj2 (init_spec (fun _ => None) sample_input sample_world)))
             1%positive); reflexivity.
  - apply (proj2 (proj2 (proj2 (init_spec (fun _ => Some true)
                                  (set_sourceBlock_ JNull sample_input) sample_world)))).
    left. reflexivity.
Defined.

(** X15: [initOutlinePath] never touches the store and changes nothing
    of the receiver but the outline; it sets the outline only on a
    value input that has none yet and whose block is on a rendered
    workspace, so an outline only ever sits on a value input. *)
Theorem initOutlinePath_spec (ws : ref -> option bool) (el : ref)
    (inp inp' : Input.t) (w w' : World) (out : completion unit) :
  initOutlinePath ws el (inp, w) = Some (out, (inp', w')) ->
  w' = w
  /\ inp' = set_outlinePath (outlinePath inp') inp
  /\ (outlinePath inp' = outlinePath inp
      \/ (outlinePath inp = None /\ outlinePath inp' = Some el
          /\ type inp = ValueInput
          /\ exists b, sourceBlock_ inp = JObj b /\ ws b = Some true))
  /\ (outline_on_value inp -> outline_on_value inp').
Proof.
  unfold initOutlinePath, sourceWorkspaceRendered. js_run.
  assert (Hsame : inp = set_outlinePath (outlinePath inp) inp) by (by destruct inp).
  destruct (sourceBlock_ inp) as [| |b] eqn:Hb; js_run;
    try (intros [= <- <- <-]; by auto).
  destruct (ws b) as [[|]|] eqn:Hws; js_run;
    try (intros [= <- <- <-]; by auto).
  destruct (outlinePath inp) as [p|] eqn:Hout; js_run.
  { intros [= <- <- <-]. rewrite Hout. auto. }
  destruct (bool_decide (type inp = ValueInput)) eqn:Hty; js_run.
  - apply bool_decide_eq_true_1 in Hty.
    intros [= <- <- <-]. split; [done |]. split; [by destruct inp |].
    split; [right; simpl; eauto 10 |]. intros _ _. exact Hty.
  - intros [= <- <- <-]. rewrite ?Hout. auto.
Qed.

Lemma initOutlinePath_spec_witness :
  sample_world = sample_world
  /\ set_outlinePath (Some 9%positive) sample_input
     = set_outlinePath (outlinePath (set_outlinePath (Some 9%positive) sample_input))
         sample_input
  /\ (outlinePath (set_outlinePath (Some 9%positive) sample_input)
      = outlinePath sample_input
      \/ (outlinePath sample_input = None
          /\ outlinePath (set_outlinePath (Some 9%positive) sample_input) = Some 9%positive
          /\ type sample_input = ValueInput
          /\ exists b, sourceBlock_ sample_input = JObj b
                       /\ (fun _ : ref => Some true) b = Some true))
  /\ (outline_on_value sample_input
      -> outline_on_value (set_outlinePath (Some 9%positive) sample_input)).
Proof.
  apply (initOutlinePath_spec (fun _ => Some true) 9%positive sample_input _
           sample_world _ (Return tt)).
  reflexivity.
Defined.

(** X16: [initOutlinePath] is idempotent: once a call has returned, a
    further call, whatever element would be created, changes
    nothing. *)
Theorem initOutlinePath_twice (ws : ref -> option bool) (el el' : ref)
    (s s1 : St) :
  initOutlinePath ws el s = Some (Return tt, s1) ->
  initOutlinePath ws el' s1 = Some (Return tt, s1).
Proof.
  destruct s as [inp w]. unfold initOutlinePath, sourceWorkspaceRendered. js_run.
  destruct (sourceBlock_ inp) as [| |b] eqn:Hb; js_run; try (intros [=]; done).
  destruct (ws b) as [[|]|] eqn:Hws; js_run; try (intros [=]; done).
  - destruct (outlinePath inp) as [p|] eqn:Hout; js_run.
    + intros [= <-]. js_run. rewrite Hb. js_run. rewrite Hws. js_run. by rewrite Hout.
    + destruct (bool_decide (type inp = ValueInput)) eqn:Hty; js_run.
      * intros [= <-]. js_run. rewrite Hb. js_run. by rewrite Hws.
      * intros [= <-]. js_run. rewrite Hb. js_run. rewrite Hws. js_run.
        rewrite Hout. by rewrite Hty.
  - intros [= <-]. js_run. rewrite Hb. js_run. by rewrite Hws.
Qed.

Lemma initOutlinePath_twice_witness :
  initOutlinePath (fun _ => Some true) 8%positive
    (set_outlinePath (Some 9%positive) sample_input, sample_world)
  = Some (Return tt, (set_outlinePath (Some 9%positive) sample_input, sample_world)).
Proof.
  apply (initOutlinePath_twice (fun _ => Some true) 9%positive 8%positive
           (sample_input, sample_world)).
  reflexivity.
Defined.

(** ** Every outcome of an insertion *)

Lemma bind_Some {A B} (m : M A) (k : A -> M B) s out s' :
  bind m k s = Some (out, s') ->
  (exists a s1, m s = Some (Return a, s1) /\ k a s1 = Some (out, s'))
  \/ (exists e, m s = Some (Throw e, s') /\ out = Throw e).
Proof.
  unfold bind. destruct (m s) as [[[a|e] s1]|]; [eauto | | discriminate].
  intros [= <- <-]. eauto.
Qed.

Lemma insert_nested_grows fuel inp w l1 l2 p b bo out s' :
  grows fuel ->
  sourceBlock_ inp = JObj b -> blocks w !! b = Some bo ->
  fieldRow inp = l1 ++ l2 ->
  insert_nested fuel (Z.of_nat (length l1)) p (inp, w) = Some (out, s') ->
  exists new w',
    out = Return (Z.of_nat (length (l1 ++ new)))
    /\ s' = (set_fieldRow (l1 ++ new ++ l2) inp, w')
    /\ blocks w' = blocks w /\ connections w' = connections w.
Proof.
  intros IH Hb Hbo Hrow. unfold insert_nested.
  destruct (truthy p) eqn:Hp.
  - intros [(v & s1 & Hm & Hk) | (e & Hm & ->)]%bind_Some.
    + destruct (IH _ _ _ _ _ _ _ _ _ _ Hb Hbo Hrow Hm Hp)
        as (new & w' & _ & [= ->] & -> & Hbl & Hco).
      simpl in Hk. injection Hk as <- <-. by exists new, w'.
    + destruct (IH _ _ _ _ _ _ _ _ _ _ Hb Hbo Hrow Hm Hp) as (? & ? & _ & [=] & _).
  - intros [= <- <-]. exists [], w. rewrite app_nil_r. simpl.
    by rewrite <- Hrow, set_fieldRow_same.
Qed.

Lemma insert_resolved_grows fuel inp w l1 l2 r nm b bo out s' :
  grows fuel ->
  sourceBlock_ inp = JObj b -> blocks w !! b = Some bo ->
  fieldRow inp = l1 ++ l2 ->
  insert_resolved fuel (Z.of_nat (length l1)) r nm (inp, w) = Some (out, s') ->
  exists new w',
    new <> []
    /\ out = Return (RetIndex (Z.of_nat (length (l1 ++ new))))
    /\ s' = (set_fieldRow (l1 ++ new ++ l2) inp, w')
    /\ blocks w' = blocks w /\ connections w' = connections w.
Proof.
  intros IH Hb Hbo Hrow. unfold insert_resolved.
  js_run. rewrite Hb. js_run. rewrite Hbo. js_run. rewrite when_emit. js_run.
  pose (wa := if Block.rendered bo
              then log (FieldInit r) (log (FieldSetSourceBlock r (JObj b)) w)
              else log (FieldSetSourceBlock r (JObj b)) w).
  assert (Hfa : fields wa = fields w) by (unfold wa; by destruct (Block.rendered bo)).
  assert (Hba : blocks wa = blocks w) by (unfold wa; by destruct (Block.rendered bo)).
  assert (Hca : connections wa = connections w)
    by (unfold wa; by destruct (Block.rendered bo)).
  fold wa. rewrite Hfa.
  destruct (fields w !! r) as [o|] eqn:Hr; js_run; [| intros [=]].
  rewrite lookup_insert_eq. js_run.
  match goal with
  | |- context [insert_nested fuel ?i ?p ?s] =>
      destruct (insert_nested fuel i p s) as [[out2 s2]|] eqn:E2; [| intros [=]]
  end.
  eapply insert_nested_grows in E2; [| exact IH | exact Hb | | exact Hrow];
    [| simpl; by rewrite Hba].
  destruct E2 as (pre & w2 & -> & -> & Hb2 & Hc2). simpl in Hb2, Hc2. js_run.
  rewrite (app_assoc l1 pre l2), splice_insert_at.
  destruct (fields w2 !! r) as [o2|] eqn:Hr2; js_run; [| intros [=]].
  replace (Z.of_nat (length (l1 ++ pre)) + 1)
    with (Z.of_nat (length (l1 ++ pre ++ [r])))
    by (rewrite !length_app; simpl; lia).
  match goal with
  | |- context [insert_nested fuel ?i ?p ?s] =>
      destruct (insert_nested fuel i p s) as [[out3 s3]|] eqn:E3; [| intros [=]]
  end.
  eapply (insert_nested_grows fuel _ w2 (l1 ++ pre ++ [r]) l2) in E3;
    [| exact IH | exact Hb | by rewrite Hb2, Hba | simpl; by rewrite <- !app_assoc].
  destruct E3 as (suf & w3 & -> & -> & Hb3 & Hc3). js_run.
  rewrite (renderAndBump_run _ _ b bo); [| done | by rewrite Hb3, Hb2, Hba].
  js_run. intros [= <- <-].
  exists (pre ++ r :: suf), (logs (render_events b bo) w3).
  split; [by destruct pre |]. split; [| split].
  - do 3 f_equal. by rewrite <- !app_assoc.
  - f_equal.
    replace ((l1 ++ pre ++ [r]) ++ suf ++ l2) with (l1 ++ (pre ++ r :: suf) ++ l2)
      by (by rewrite <- !app_assoc).
    reflexivity.
  - simpl. split; congruence.
Qed.

(** Whenever a call of [insertFieldAt] on a truthy field completes on
    a receiver that has its block, it returned an index and the row
    gained a non-empty run of entries just before that index. *)
Lemma insertFieldAt_grows (fuel : nat) : grows fuel.
Proof.
  induction fuel as [|fuel IH];
    intros inp w l1 l2 a nm b bo out s' Hb Hbo Hrow H Ha; [discriminate H |].
  rewrite insertFieldAt_unfold in H; [| rewrite Hrow, length_app; lia | done].
  destruct a as [| |s|r]; try discriminate Ha.
  - revert H. simpl toField. js_run. intros H.
    eapply insert_resolved_grows in H; [| exact IH | exact Hb | exact Hbo | exact Hrow].
    exact H.
  - revert H. simpl toField. js_run. intros H.
    eapply insert_resolved_grows in H; [| exact IH | exact Hb | exact Hbo | exact Hrow].
    exact H.
Qed.

(** The three ways a call with an index in range can complete. *)
Lemma insertFieldAt_cases fuel i a nm inp w out inp' w' :
  0 <= i <= Z.of_nat (length (fieldRow inp)) ->
  insertFieldAt fuel i a nm (inp, w) = Some (out, (inp', w')) ->
  (out = Return RetThis /\ inp' = inp /\ w' = w
   /\ truthy a = false /\ truthy_name nm = false)
  \/ (out = Throw TypeError /\ inp' = inp
      /\ blocks w' = blocks w /\ connections w' = connections w)
  \/ (exists new,
        new <> []
        /\ out = Return (RetIndex (i + Z.of_nat (length new)))
        /\ inp' = set_fieldRow (take (Z.to_nat i) (fieldRow inp) ++ new
                                ++ drop (Z.to_nat i) (fieldRow inp)) inp
        /\ blocks w' = blocks w /\ connections w' = connections w).
Proof.
  intros Hi H. destruct fuel as [|fuel]; [discriminate H |].
  destruct (negb (truthy a) && negb (truthy_name nm)) eqn:Hfalsy.
  { apply andb_true_iff in Hfalsy as [Ha Hn].
    apply negb_true_iff in Ha, Hn.
    rewrite insertFieldAt_falsy in H by done. injection H as <- <- <-. auto 10. }
  rewrite insertFieldAt_unfold' in H by done.
  destruct (row_split (fieldRow inp) i Hi) as [Hrow Hlen].
  assert (Hdead : forall r w0,
    blocks w0 = blocks w -> connections w0 = connections w ->
    insert_resolved fuel i r nm (inp, w0) = Some (out, (inp', w')) ->
    (out = Throw TypeError /\ inp' = inp
      /\ blocks w' = blocks w /\ connections w' = connections w)
    \/ (exists new,
        new <> []
        /\ out = Return (RetIndex (i + Z.of_nat (length new)))
        /\ inp' = set_fieldRow (take (Z.to_nat i) (fieldRow inp) ++ new
                                ++ drop (Z.to_nat i) (fieldRow inp)) inp
        /\ blocks w' = blocks w /\ connections w' = connections w)).
  { intros r w0 Hb0 Hc0 Hres.
    destruct (sourceBlock_ inp) as [| |b] eqn:Hb.
    - left. revert Hres. unfold insert_resolved. js_run. rewrite Hb. js_run.
      intros [= <- <- <-]. auto.
    - left. revert Hres. unfold insert_resolved. js_run. rewrite Hb. js_run.
      intros [= <- <- <-]. auto.
    - destruct (blocks w0 !! b) as [bo|] eqn:Hbo.
      + right. rewrite <- Hlen in Hres.
        eapply insert_resolved_grows in Hres;
          [| apply insertFieldAt_grows | exact Hb | exact Hbo | exact Hrow].
        destruct Hres as (new & w1 & Hne & -> & [= -> ->] & Hb1 & Hc1).
        exists new. split; [done |]. split; [| split; [done | split; congruence]].
        do 2 f_equal. rewrite length_app. lia.
      + revert Hres. unfold insert_resolved. js_run. rewrite Hb. js_run.
        rewrite Hbo. js_run. intros [=]. }
  right. destruct a as [| |s|r]; revert H; simpl toField; js_run.
  - intros [= <- <- <-]. auto.
  - intros [= <- <- <-]. auto.
  - intros H. by apply Hdead in H.
  - intros H. by apply Hdead in H.
Qed.

(** X17: a call of [insertFieldAt] with an index in range completes in
    one of three ways.  It returns the receiver, having changed
    nothing (falsy field, no name); or it throws a TypeError with the
    receiver unchanged (no row entry was added); or it returns an
    index [j], the row having gained exactly the [j - i] entries that
    now sit at [i .. j - 1], with nothing else of the receiver changed.
    It never throws the out-of-bounds error from a nested call, and
    never writes to blocks or connections. *)
Theorem insertFieldAt_outcome (fuel : nat) (i : Z) (a : FieldArg)
    (nm : option string) (inp inp' : Input.t) (w w' : World) (out : completion Ret) :
  0 <= i <= Z.of_nat (length (fieldRow inp)) ->
  insertFieldAt fuel i a nm (inp, w) = Some (out, (inp', w')) ->
  (out = Return RetThis /\ inp' = inp /\ w' = w
   /\ truthy a = false /\ truthy_name nm = false)
  \/ (out = Throw TypeError /\ inp' = inp
      /\ blocks w' = blocks w /\ connections w' = connections w)
  \/ (exists new,
        new <> []
        /\ out = Return (RetIndex (i + Z.of_nat (length new)))
        /\ inp' = set_fieldRow (take (Z.to_nat i) (fieldRow inp) ++ new
                                ++ drop (Z.to_nat i) (fieldRow inp)) inp
        /\ blocks w' = blocks w /\ connections w' = connections w).
Proof. apply insertFieldAt_cases. Qed.

(** X18: [appendField] never fails on its index: it returns the
    receiver with the old row as a prefix of the new one (unchanged
    for a falsy field without a name), or throws a TypeError with the
    receiver unchanged. *)
Theorem appendField_outcome (fuel : nat) (a : FieldArg) (nm : option string)
    (inp inp' : Input.t) (w w' : World) (out : completion Ret) :
  appendField fuel a nm (inp, w) = Some (out, (inp', w')) ->
  (out = Return RetThis
   /\ exists new, inp' = set_fieldRow (fieldRow inp ++ new) inp
                  /\ (new = [] <-> truthy a = false /\ truthy_name nm = false))
  \/ (out = Throw TypeError /\ inp' = inp).
Proof.
  unfold appendField. js_run.
  destruct (insertFieldAt fuel _ a nm (inp, w)) as [[out1 [inp1 w1]]|] eqn:H;
    [| intros [=]].
  pose proof H as H0.
  apply insertFieldAt_cases in H; [| lia].
  destruct H as [(-> & -> & -> & Ha & Hn) | [(-> & -> & _) | (new & Hne & -> & -> & _)]].
  - js_run. intros [= <- <- <-]. left. split; [done |]. exists [].
    rewrite app_nil_r, set_fieldRow_same. split; [done |]. done.
  - intros [= <- <- <-]. by right.
  - js_run. intros [= <- <- <-]. left. split; [done |]. exists new.
    rewrite Nat2Z.id, firstn_all, drop_all, app_nil_r. split; [done |].
    split; [done |]. intros [Ha Hn].
    destruct fuel as [|fuel]; [discriminate H0 |].
    rewrite insertFieldAt_falsy in H0 by (done || lia). discriminate H0.
Qed.

Lemma insertFieldAt_outcome_witness :
  (Return (RetIndex 1) = Return RetThis
   /\ set_fieldRow [1%positive; 3%positive] row_input = row_input
   /\ set_fields (<[1%positive := Field.mk None AUndefined AUndefined "a"]>
                    (fields plain_world))
        (logs [FieldSetSourceBlock 1%positive (JObj 1%positive); FieldInit 1%positive;
               BlockRender 1%positive; BlockBumpNeighbours 1%positive] plain_world)
      = plain_world
   /\ truthy (AField 1%positive) = false /\ truthy_name None = false)
  \/ (Return (RetIndex 1) = Throw TypeError
      /\ set_fieldRow [1%positive; 3%positive] row_input = row_input
      /\ blocks (set_fields (<[1%positive := Field.mk None AUndefined AUndefined "a"]>
                               (fields plain_world))
                   (logs [FieldSetSourceBlock 1%positive (JObj 1%positive);
                          FieldInit 1%positive;
                          BlockRender 1%positive; BlockBumpNeighbours 1%positive]
                      plain_world))
         = blocks plain_world
      /\ connections
           (set_fields (<[1%positive := Field.mk None AUndefined AUndefined "a"]>
                          (fields plain_world))
              (logs [FieldSetSourceBlock 1%positive (JObj 1%positive);
                     FieldInit 1%positive;
                     BlockRender 1%positive; BlockBumpNeighbours 1%positive]
                 plain_world))
         = connections plain_world)
  \/ (exists new,
        new <> []
        /\ Return (RetIndex 1) = Return (RetIndex (0 + Z.of_nat (length new)))
        /\ set_fieldRow [1%positive; 3%positive] row_input
           = set_fieldRow (take (Z.to_nat 0) (fieldRow row_input) ++ new
                           ++ drop (Z.to_nat 0) (fieldRow row_input)) row_input
        /\ blocks (set_fields (<[1%positive := Field.mk None AUndefined AUndefined "a"]>
                                 (fields plain_world))
                     (logs [FieldSetSourceBlock 1%positive (JObj 1%positive);
                            FieldInit 1%positive;
                            BlockRender 1%positive; BlockBumpNeighbours 1%positive]
                        plain_world))
           = blocks plain_world
        /\ connections
             (set_fields (<[1%positive := Field.mk None AUndefined AUndefined "a"]>
                            (fields plain_world))
                (logs [FieldSetSourceBlock 1%positive (JObj 1%positive);
                       FieldInit 1%positive;
                       BlockRender 1%positive; BlockBumpNeighbours 1%positive]
                   plain_world))
           = connections plain_world).
Proof.
  apply (insertFieldAt_outcome 1 0 (AField 1%positive) None row_input _ plain_world _ _);
    [simpl; lia | vm_compute; reflexivity].
Defined.

Lemma appendField_outcome_witness :
  (Return RetThis = Return RetThis
   /\ exists new,
        set_fieldRow [3%positive; 1%positive] row_input
        = set_fieldRow (fieldRow row_input ++ new) row_input
        /\ (new = [] <-> truthy (AField 1%positive) = false /\ truthy_name None = false))
  \/ (Return RetThis = Throw TypeError
      /\ set_fieldRow [3%positive; 1%positive] row_input = row_input).
Proof.
  apply (appendField_outcome 1 (AField 1%positive) None row_input _ plain_world
           (set_fields (<[1%positive := Field.mk None AUndefined AUndefined "a"]>
                          (fields plain_world))
              (logs [FieldSetSourceBlock 1%positive (JObj 1%positive);
                     FieldInit 1%positive;
                     BlockRender 1%positive; BlockBumpNeighbours 1%positive]
                 plain_world)) _).
  vm_compute. reflexivity.
Defined.

(** ** What the methods never touch *)

Section Goes.
Context (R : St -> St -> Prop).
Hypothesis R_refl : forall s, R s s.
Hypothesis R_trans : forall s1 s2 s3, R s1 s2 -> R s2 s3 -> R s1 s3.

Lemma sg_ret {A} (a : A) : state_goes R (ret a).
Proof. intros s out s' [= <- <-]. apply R_refl. Qed.

Lemma sg_throw {A} (e : exn) : state_goes R (@throw A e).
Proof. intros s out s' [= <- <-]. apply R_refl. Qed.

Lemma sg_stuck {A} : state_goes R (@stuck A).
Proof. intros s out s' [=]. Qed.

Lemma sg_this : state_goes R this.
Proof. intros s out s' [= <- <-]. apply R_refl. Qed.

Lemma sg_world : state_goes R world.
Proof. intros s out s' [= <- <-]. apply R_refl. Qed.

Lemma sg_fromStore {A} (o : option A) : state_goes R (fromStore o).
Proof. destruct o; [apply sg_ret | apply sg_stuck]. Qed.

Lemma sg_setThis f :
  (forall s, R s (f (fst s), snd s)) -> state_goes R (setThis f).
Proof. intros H s out s' [= <- <-]. apply H. Qed.

Lemma sg_setWorld f :
  (forall s, R s (fst s, f (snd s))) -> state_goes R (setWorld f).
Proof. intros H s out s' [= <- <-]. apply H. Qed.

Lemma sg_bind {A B} (m : M A) (k : A -> M B) :
  state_goes R m -> (forall a, state_goes R (k a)) -> state_goes R (bind m k).
Proof.
  intros Hm Hk s out s' [(a & s1 & H1 & H2) | (e & H1 & ->)]%bind_Some.
  - eapply R_trans; [eapply Hm, H1 | eapply Hk, H2].
  - eapply Hm, H1.
Qed.

End Goes.

(** One step through a computation built from the primitives. *)
Ltac sg_step R Hr Ht :=
  first
    [ apply (sg_bind R Ht); [| intros ?]
    | apply (sg_ret R Hr) | apply (sg_throw R Hr) | apply sg_stuck
    | apply (sg_this R Hr) | apply (sg_world R Hr) | apply (sg_fromStore R Hr)
    | apply sg_setThis; intros [? ?]; simpl
    | apply sg_setWorld; intros [? ?]; simpl
    | match goal with
      | |- state_goes _ (if ?c then _ else _) => destruct c
      | |- state_goes _ (match ?x with _ => _ end) => destruct x
      end ].

Ltac sg_row_done :=
  unfold row_rel, same_but_row; simpl; try reflexivity;
  match goal with |- ?x = set_fieldRow _ ?x => destruct x; reflexivity end.

Ltac sg_unfold :=
  unfold renderAndBump, setFieldName, sourceBlockRendered, theSourceBlock,
    getField, getBlock, getConnection, emit, when, asIndex, isVisible.

(** *** The receiver *)

Lemma same_but_row_refl (s : St) : same_but_row (fst s) (fst s).
Proof. unfold same_but_row. by destruct s as [[] ?]. Qed.

Lemma same_but_row_trans (s1 s2 s3 : St) :
  same_but_row (fst s1) (fst s2) -> same_but_row (fst s2) (fst s3) ->
  same_but_row (fst s1) (fst s3).
Proof. unfold same_but_row. intros H1 H2. rewrite H2. rewrite H1 at 1. done. Qed.

Lemma toField_receiver (R : Input.t -> Input.t -> Prop) a :
  (forall i, R i i) -> state_goes (fun s s' => R (fst s) (fst s')) (toField a).
Proof.
  intros Hr [i w] out s'. destruct a; simpl; js_run; intros [= <- <-]; apply Hr.
Qed.

Lemma insertFieldAt_receiver fuel : forall i a nm,
  state_goes (fun s s' => same_but_row (fst s) (fst s')) (insertFieldAt fuel i a nm).
Proof.
  induction fuel as [|fuel IH]; intros i a nm; cbn [insertFieldAt].
  - apply sg_stuck.
  - sg_unfold.
    repeat first
      [ apply IH
      | apply toField_receiver; intros []; reflexivity
      | sg_step row_rel same_but_row_refl same_but_row_trans ];
      sg_row_done.
Qed.

Lemma removeField_from_receiver n : forall rest k,
  state_goes (fun s s' => same_but_row (fst s) (fst s')) (removeField_from n k rest).
Proof.
  induction rest as [|f rest IH]; intros k; cbn [removeField_from].
  - apply (sg_throw row_rel same_but_row_refl).
  - sg_unfold.
    repeat first [ apply IH | sg_step row_rel same_but_row_refl same_but_row_trans ];
      sg_row_done.
Qed.

Lemma loop_receiver (loop : list ref -> M unit) (ev : ref -> Event) :
  (forall f row, loop (f :: row) = (emit (ev f);; loop row)) -> loop [] = ret tt ->
  forall row, state_goes (fun s s' => fst s' = fst s) (loop row).
Proof.
  intros Hcons Hnil row. induction row as [|f row IH].
  - rewrite Hnil. by apply sg_ret.
  - rewrite Hcons. apply sg_bind; [congruence | | done].
    unfold emit. by apply sg_setWorld.
Qed.

Ltac sg_eq :=
  sg_unfold;
  repeat first
    [ apply (loop_receiver _ _ (fun _ _ => eq_refl) eq_refl)
    | sg_step eq_rel (fun s : St => @eq_refl _ (fst s))
              (fun (s1 s2 s3 : St) (H1 : fst s2 = fst s1) (H2 : fst s3 = fst s2) =>
                 eq_trans H2 H1) ];
  try reflexivity.

(** X19: what each method may change of the receiver, however it
    completes.  [insertFieldAt], [appendField] and [removeField] change
    at most the field row; [setCheck] and [init] change nothing;
    [setVisible] at most the visibility flag, [setAlign] at most the
    alignment, [dispose] at most [sourceBlock_].  So the kind, the name
    and the connection of an input are never reassigned, and only
    [dispose] clears the owning block. *)
Theorem receiver_frame :
  (forall fuel i a nm, receiver_goes same_but_row (insertFieldAt fuel i a nm))
  /\ (forall fuel a nm, receiver_goes same_but_row (appendField fuel a nm))
  /\ (forall n, receiver_goes same_but_row (removeField n))
  /\ (forall c, receiver_goes (fun i i' => i' = i) (setCheck c))
  /\ (forall ws, receiver_goes (fun i i' => i' = i) (init ws))
  /\ (forall v, receiver_goes (fun i i' => i' = set_visible_ (visible_ i') i) (setVisible v))
  /\ (forall a, receiver_goes (fun i i' => i' = set_align (align i') i) (setAlign a))
  /\ receiver_goes (fun i i' => i' = set_sourceBlock_ (sourceBlock_ i') i) dispose.
Proof.
  split; [exact insertFieldAt_receiver |].
  split.
  { intros fuel a nm. unfold appendField.
    apply (sg_bind row_rel same_but_row_trans);
      [apply (sg_this row_rel same_but_row_refl) | intros i0].
    apply (sg_bind row_rel same_but_row_trans);
      [apply insertFieldAt_receiver | intros ?; apply (sg_ret row_rel same_but_row_refl)]. }
  split.
  { intros n. unfold removeField.
    apply (sg_bind row_rel same_but_row_trans);
      [apply (sg_this row_rel same_but_row_refl) | intros i0; apply removeField_from_receiver]. }
  split.
  { intros c. change (state_goes (fun s s' => fst s' = fst s) (setCheck c)).
    unfold setCheck. sg_eq. }
  split.
  { intros ws. change (state_goes (fun s s' => fst s' = fst s) (init ws)).
    unfold init, sourceWorkspaceRendered. sg_eq. }
  split.
  { intros v [inp w] out [inp' w'] H.
    destruct out as [l|e].
    - by apply setVisible_receiver in H as ->.
    - exfalso. revert H. unfold setVisible. js_run.
      destruct (Bool.eqb (visible_ inp) v); [intros [=] |].
      js_run. rewrite setVisible_fields_run. js_run.
      destruct (connection inp) as [c|]; js_run; [| intros [=]].
      destruct (connections w !! c) as [k|] eqn:Hk.
      2: { destruct v; js_run; rewrite Hk; js_run; intros [=]. }
      destruct v; js_run; rewrite Hk; js_run; rewrite ?Hk; js_run.
      + destruct (Connection.targetBlock k) as [child|]; js_run; [| intros [=]].
        destruct (blocks w !! child) as [o|]; js_run; intros [=].
      + destruct (Connection.targetBlock k) as [child|]; js_run; [| intros [=]].
        destruct (blocks w !! child) as [o|]; js_run; [| intros [=]].
        rewrite lookup_insert_eq. js_run. intros [=]. }
  split.
  { intros a [inp w] out [inp' w']. unfold setAlign. js_run.
    destruct (sourceBlock_ inp) as [| |b] eqn:Hb; js_run;
      try (intros [= <- <- <-]; reflexivity).
    destruct (blocks w !! b) as [bo|]; js_run; [| intros [=]].
    unfold when. destruct (Block.rendered bo); js_run.
    - rewrite Hb. js_run. intros [= <- <- <-]. reflexivity.
    - intros [= <- <- <-]. reflexivity. }
  intros [inp w] out [inp' w'] H. rewrite dispose_run in H.
  injection H as <- <- <-. reflexivity.
Qed.

Lemma receiver_frame_witness :
  same_but_row row_input (set_fieldRow [1%positive; 3%positive] row_input).
Proof.
  eapply (proj1 receiver_frame 1%nat 0 (AField 1%positive) None
            (row_input, plain_world) _ (_, _)).
  vm_compute. reflexivity.
Defined.
(** *** The store *)

Lemma only_calls_refl (s : St) : calls_rel s s.
Proof. by repeat split. Qed.

Lemma only_calls_trans (s1 s2 s3 : St) :
  calls_rel s1 s2 -> calls_rel s2 s3 -> calls_rel s1 s3.
Proof.
  intros (Hf1 & Hb1 & Hc1) (Hf2 & Hb2 & Hc2).
  split; [congruence |]. split; congruence.
Qed.

Lemma renamed_refl (o : Field.t) : renamed o o.
Proof. by destruct o. Qed.

Lemma renamed_trans (o1 o2 o3 : Field.t) :
  renamed o1 o2 -> renamed o2 o3 -> renamed o1 o3.
Proof. unfold renamed. intros H1 H2. rewrite H2. rewrite H1 at 1. by destruct o1. Qed.

Lemma names_written_refl (s : St) : names_rel s s.
Proof.
  split; [done |]. split; [done |].
  intros r o Ho. exists o. split; [done | apply renamed_refl].
Qed.

Lemma names_written_trans (s1 s2 s3 : St) :
  names_rel s1 s2 -> names_rel s2 s3 -> names_rel s1 s3.
Proof.
  intros (Hb1 & Hc1 & Hf1) (Hb2 & Hc2 & Hf2).
  split; [congruence |]. split; [congruence |].
  intros r o Ho.
  destruct (Hf1 r o Ho) as (o' & Ho' & Hr').
  destruct (Hf2 r o' Ho') as (o'' & Ho'' & Hr'').
  exists o''. split; [done |]. by eapply renamed_trans.
Qed.

Lemma only_calls_names (w w' : World) : only_calls w w' -> names_written w w'.
Proof.
  intros (Hf & Hb & Hc). split; [done |]. split; [done |].
  intros r o Ho. exists o. rewrite Hf. split; [done | apply renamed_refl].
Qed.

(** A new label takes a reference the store does not use. *)
Lemma toField_names (a : FieldArg) : state_goes names_rel (toField a).
Proof.
  intros [i w] out s'. destruct a; simpl; js_run; intros [= <- <-];
    try apply names_written_refl.
  split; [done |]. split; [done |]. simpl.
  intros r o Ho. exists o. split; [| apply renamed_refl].
  rewrite lookup_insert_ne; [done |].
  intros <-. pose proof (is_fresh (dom (fields w))) as Hfresh.
  apply Hfresh. apply elem_of_dom. by exists o.
Qed.

(** [field.name = opt_name] writes the name of one field. *)
Lemma setFieldName_names (f : ref) (n : option string) :
  state_goes names_rel (setFieldName f n).
Proof.
  intros [i w] out s'. unfold setFieldName. js_run.
  destruct (fields w !! f) as [fo|] eqn:Hf; js_run; [| intros [=]].
  intros [= <- <-]. split; [done |]. split; [done |]. simpl.
  intros r o Ho. destruct (decide (r = f)) as [-> | Hne].
  - exists (Field.set_name n fo). rewrite lookup_insert_eq. split; [done |].
    assert (o = fo) as -> by congruence. by destruct fo.
  - exists o. rewrite lookup_insert_ne by done. split; [done | apply renamed_refl].
Qed.

Ltac sg_names_done :=
  unfold names_rel; simpl; apply only_calls_names; by repeat split.

Ltac sg_calls_done := unfold calls_rel; simpl; by repeat split.

Lemma insertFieldAt_names (fuel : nat) : forall i a nm,
  state_goes names_rel (insertFieldAt fuel i a nm).
Proof.
  induction fuel as [|fuel IH]; intros i a nm; cbn [insertFieldAt].
  - apply sg_stuck.
  - unfold renderAndBump, sourceBlockRendered, theSourceBlock, getField, getBlock,
      emit, when, asIndex.
    repeat first
      [ apply IH
      | apply toField_names
      | apply setFieldName_names
      | sg_step names_rel names_written_refl names_written_trans ];
      sg_names_done.
Qed.

Lemma removeField_from_calls (n : string) : forall rest k,
  state_goes calls_rel (removeField_from n k rest).
Proof.
  induction rest as [|f rest IH]; intros k; cbn [removeField_from].
  - apply (sg_throw _ only_calls_refl).
  - sg_unfold.
    repeat first [ apply IH | sg_step calls_rel only_calls_refl only_calls_trans ];
      sg_calls_done.
Qed.

Lemma loop_calls (loop : list ref -> M unit) (ev : ref -> Event) :
  (forall f row, loop (f :: row) = (emit (ev f);; loop row)) -> loop [] = ret tt ->
  forall row, state_goes calls_rel (loop row).
Proof.
  intros Hcons Hnil row. induction row as [|f row IH].
  - rewrite Hnil. apply (sg_ret _ only_calls_refl).
  - rewrite Hcons. apply (sg_bind _ only_calls_trans); [| done].
    unfold emit. apply sg_setWorld. intros [? ?]. sg_calls_done.
Qed.

(** X20: which properties of other objects the methods assign
    themselves, however they complete; everything else they do to an
    object goes through a call of one of its methods.
    [insertFieldAt] and [appendField] assign names of fields and
    nothing else: every field object is still there, changed at most in
    its name, and no block or connection is written.  [removeField],
    [setAlign], [dispose], [init] and [initOutlinePath] assign nothing.
    [setCheck] writes to the connection of the input only, and
    [setVisible] to the block linked through that connection only. *)
Theorem store_writes :
  (forall fuel i a nm, store_goes names_written (insertFieldAt fuel i a nm))
  /\ (forall fuel a nm, store_goes names_written (appendField fuel a nm))
  /\ (forall n, store_goes only_calls (removeField n))
  /\ (forall a, store_goes only_calls (setAlign a))
  /\ store_goes only_calls dispose
  /\ (forall ws, store_goes only_calls (init ws))
  /\ (forall ws el, store_goes only_calls (initOutlinePath ws el))
  /\ (forall c s out s',
        setCheck c s = Some (out, s') ->
        connection_written (connection (fst s)) (snd s) (snd s'))
  /\ (forall v s out s',
        setVisible v s = Some (out, s') ->
        block_written (linked_block (fst s) (snd s)) (snd s) (snd s')).
Proof.
  split; [exact insertFieldAt_names |].
  split.
  { intros fuel a nm. change (state_goes names_rel (appendField fuel a nm)).
    unfold appendField.
    repeat first [ apply insertFieldAt_names
                 | sg_step names_rel names_written_refl names_written_trans ]. }
  split.
  { intros n. change (state_goes calls_rel (removeField n)). unfold removeField.
    repeat first [ apply removeField_from_calls
                 | sg_step calls_rel only_calls_refl only_calls_trans ]. }
  split.
  { intros a. change (state_goes calls_rel (setAlign a)). unfold setAlign.
    sg_unfold. repeat sg_step calls_rel only_calls_refl only_calls_trans;
      sg_calls_done. }
  split.
  { intros [inp w] out [inp' w'] H. rewrite dispose_run in H.
    injection H as <- <- <-. by repeat split. }
  split.
  { intros ws. change (state_goes calls_rel (init ws)).
    unfold init, sourceWorkspaceRendered. sg_unfold.
    repeat first
      [ apply (loop_calls init_fields FieldInit (fun _ _ => eq_refl) eq_refl)
      | sg_step calls_rel only_calls_refl only_calls_trans ]. }
  split.
  { intros ws el. change (state_goes calls_rel (initOutlinePath ws el)).
    unfold initOutlinePath, sourceWorkspaceRendered. sg_unfold.
    repeat sg_step calls_rel only_calls_refl only_calls_trans; sg_calls_done. }
  split.
  { intros c [inp w] out [inp' w']. unfold setCheck. js_run.
    destruct (connection inp) as [c0|]; js_run;
      [| intros [= <- <- <-]; by repeat split].
    destruct (connections w !! c0) as [k|] eqn:Hk; js_run; [| intros [=]].
    intros [= <- <- <-]. split; [done |]. split; [done |]. simpl.
    intros c' Hne. rewrite lookup_insert_ne; [done | congruence]. }
  intros v [inp w] out [inp' w']. unfold setVisible, linked_block. js_run.
  destruct (Bool.eqb (visible_ inp) v); [intros [= <- <- <-]; by repeat split |].
  js_run. rewrite setVisible_fields_run. js_run.
  destruct (connection inp) as [c|]; js_run; [| intros [= <- <- <-]; by repeat split].
  destruct (connections w !! c) as [k|] eqn:Hk.
  2: { destruct v; js_run; rewrite Hk; js_run; intros [=]. }
  destruct v; js_run; rewrite Hk; js_run; rewrite ?Hk; js_run.
  - destruct (Connection.targetBlock k) as [child|]; js_run;
      [| intros [= <- <- <-]; by repeat split].
    destruct (blocks w !! child) as [o|]; js_run; [| intros [=]].
    intros [= <- <- <-]. split; [done |]. split; [done |]. simpl.
    intros b' Hne. rewrite lookup_insert_ne; [done | congruence].
  - destruct (Connection.targetBlock k) as [child|]; js_run;
      [| intros [= <- <- <-]; by repeat split].
    destruct (blocks w !! child) as [o|]; js_run; [| intros [=]].
    rewrite lookup_insert_eq. js_run.
    intros [= <- <- <-]. split; [done |]. split; [done |]. simpl.
    intros b' Hne. rewrite !lookup_insert_ne; [done | congruence | congruence].
Qed.

Lemma store_writes_witness :
  exists out s',
    insertFieldAt 2 0 (AField 1%positive) None (nested_input, nested_world)
    = Some (out, s')
    /\ names_written nested_world (snd s').
Proof.
  eexists _, _. split; [vm_compute; reflexivity |].
  eapply (proj1 store_writes 2%nat 0 (AField 1%positive) None
            (nested_input, nested_world) _ (_, _)).
  vm_compute. reflexivity.
Defined.

(** *** A freshly constructed input *)

(** X28: the constructor stores the block under [sourceBlock] and never
    assigns [sourceBlock_], the property the methods read.  So on an
    input just constructed, whatever the arguments, the methods that
    consult the owning block throw a TypeError: [insertFieldAt] of a
    field object (after [setSourceBlock(undefined)] on the field, the
    row staying empty), [setAlign] (after storing the alignment),
    [init] and [initOutlinePath]; [removeField] finds nothing, and
    [isVisible] answers true. *)
Theorem constructed_input (ty : ConnectionType) (nm : string) (block : ref)
    (conn : option ref) (inp : Input.t) (w : World) :
  Input.new ty nm block conn = Return inp ->
  (forall fuel f n,
     insertFieldAt (S fuel) 0 (AField f) n (inp, w)
     = Some (Throw TypeError, (inp, logs [FieldSetSourceBlock f JUndefined] w)))
  /\ (forall a, setAlign a (inp, w) = Some (Throw TypeError, (set_align a inp, w)))
  /\ (forall ws, init ws (inp, w) = Some (Throw TypeError, (inp, w)))
  /\ (forall ws el, initOutlinePath ws el (inp, w) = Some (Throw TypeError, (inp, w)))
  /\ (forall n, removeField n (inp, w) = Some (Throw (FieldNotFound n), (inp, w)))
  /\ isVisible (inp, w) = Some (Return true, (inp, w)).
Proof.
  unfold Input.new.
  destruct (bool_decide (ty ≠ DummyInput) && negb (bool_decide (nm ≠ EmptyString)));
    [discriminate |].
  intros [= <-]. repeat split; intros; reflexivity.
Qed.

Lemma constructed_input_witness :
  setAlign ALIGN_RIGHT (Input.mk ValueInput "A" 1%positive JUndefined None [] None
                          ALIGN_LEFT true, sample_world)
  = Some (Throw TypeError,
          (set_align ALIGN_RIGHT (Input.mk ValueInput "A" 1%positive JUndefined None []
                                    None ALIGN_LEFT true), sample_world)).
Proof.
  exact (proj1 (proj2 (constructed_input ValueInput "A" 1%positive None _ sample_world
                         eq_refl)) ALIGN_RIGHT).
Defined.

End InputExtra.

(** * Further properties of [Grid] *)

Module GridExtra.
Import Grid GridSpec GridFacts.

(** Attribute maps written twice. *)
Ltac attr_eq :=
  apply map_eq; intros ?; rewrite !lookup_insert;
  repeat case_decide; congruence.

Lemma setAttribute_twice n v v' e :
  setAttribute n v' (setAttribute n v e) = setAttribute n v' e.
Proof. unfold setAttribute. simpl. f_equal. apply insert_insert_eq. Qed.

Lemma tile_twice v v' p :
  setAttribute "height" v' (setAttribute "width" v'
    (setAttribute "height" v (setAttribute "width" v p)))
  = setAttribute "height" v' (setAttribute "width" v' p).
Proof. unfold setAttribute. simpl. f_equal. attr_eq. Qed.

Lemma setLineAttributes_twice l a1 b1 c1 d1 e1 a2 b2 c2 d2 e2 :
  setLineAttributes_ (setLineAttributes_ l a1 b1 c1 d1 e1) a2 b2 c2 d2 e2
  = setLineAttributes_ l a2 b2 c2 d2 e2.
Proof.
  destruct l as [l|]; [| done]. unfold setLineAttributes_, setAttribute. simpl.
  do 2 f_equal. attr_eq.
Qed.

(** X21: [update] does not accumulate: after any earlier [update], a
    call with scale [s2] leaves the grid exactly as that call alone
    would; in particular repeating a call changes nothing. *)
Theorem update_last_wins (g : t) (s1 s2 : float) :
  update s2 (snd (update s1 g)) = update s2 g.
Proof.
  destruct g as [[p|] sp len sn l1 l2 sc]; [| reflexivity].
  cbv beta iota zeta delta [update set_scale_ set_gridPattern_ set_line1_ set_line2_
    gridPattern_ spacing_ length_ snapToGrid_ line1_ line2_ scale_ snd
    half_of start_of end_of safeSpacing].
  rewrite tile_twice, !setLineAttributes_twice. reflexivity.
Qed.

(** X22: neither [update] nor [moveTo] changes the spacing, the line
    length, the snap flag or the pattern's id, and neither creates or
    drops the pattern or a line: the accessors answer as before. *)
Theorem grid_frame (g : t) (s x y : float) (ie : bool) :
  (let g' := snd (update s g) in
   getSpacing g' = getSpacing g /\ shouldSnap g' = shouldSnap g
   /\ length_ g' = length_ g /\ getPatternId g' = getPatternId g
   /\ (line1_ g' = None <-> line1_ g = None)
   /\ (line2_ g' = None <-> line2_ g = None))
  /\ (let g' := snd (moveTo ie x y g) in
      getSpacing g' = getSpacing g /\ shouldSnap g' = shouldSnap g
      /\ length_ g' = length_ g /\ getPatternId g' = getPatternId g
      /\ scale_ g' = scale_ g
      /\ (line1_ g' = None <-> line1_ g = None)
      /\ (line2_ g' = None <-> line2_ g = None)).
Proof.
  split.
  - unfold update, getSpacing, shouldSnap, getPatternId. simpl.
    destruct (gridPattern_ g) as [p|] eqn:Hp; simpl; rewrite ?Hp;
      repeat split; try done;
      try (destruct (line1_ g); done); destruct (line2_ g); done.
  - unfold moveTo, update, getSpacing, shouldSnap, getPatternId.
    destruct (gridPattern_ g) as [p|] eqn:Hp; simpl; rewrite ?Hp;
      [| repeat split; done].
    destruct ie; simpl; repeat split; try done;
      try (destruct (line1_ g); done); destruct (line2_ g); done.
Qed.

(** X23: after [update(scale)] the first line is horizontal and the
    second vertical: line 1 has [y1 = y2], line 2 has [x1 = x2], both
    at the scaled centre of the tile, and both get the scale as stroke
    width. *)
Theorem update_lines (g : t) (scale : float) (p : SVGElement) :
  gridPattern_ g = Some p ->
  (forall l, line1_ g = Some l ->
     exists l', line1_ (snd (update scale g)) = Some l'
       /\ attributes l' !! "stroke-width"%string = Some scale
       /\ attributes l' !! "y1"%string = Some (half_of g scale)
       /\ attributes l' !! "y2"%string = Some (half_of g scale))
  /\ (forall l, line2_ g = Some l ->
     exists l', line2_ (snd (update scale g)) = Some l'
       /\ attributes l' !! "stroke-width"%string = Some scale
       /\ attributes l' !! "x1"%string = Some (half_of g scale)
       /\ attributes l' !! "x2"%string = Some (half_of g scale)).
Proof.
  intros Hp. unfold update. simpl. rewrite Hp. simpl.
  split; intros l ->; eexists; (split; [reflexivity |]);
    unfold setAttribute; simpl; repeat split;
    rewrite ?lookup_insert_ne by done; by rewrite lookup_insert_eq.
Qed.

Lemma update_lines_witness :
  (exists l', line1_ (snd (update 2 pointless_grid)) = Some l'
     /\ attributes l' !! "stroke-width"%string = Some 2%float
     /\ attributes l' !! "y1"%string = Some (half_of pointless_grid 2)
     /\ attributes l' !! "y2"%string = Some (half_of pointless_grid 2))
  /\ (exists l', line2_ (snd (update 2 pointless_grid)) = Some l'
     /\ attributes l' !! "stroke-width"%string = Some 2%float
     /\ attributes l' !! "x1"%string = Some (half_of pointless_grid 2)
     /\ attributes l' !! "x2"%string = Some (half_of pointless_grid 2)).
Proof.
  destruct (update_lines pointless_grid 2 sample_pattern eq_refl) as [H1 H2].
  split; [apply (H1 sample_line eq_refl) | apply (H2 sample_line eq_refl)].
Defined.

(** X24: the tile [update] writes is never degenerate: its width and
    height are the same number, and that number is neither 0, -0 nor
    NaN. *)
Theorem update_tile_truthy (g : t) (scale : float) (p : SVGElement) :
  gridPattern_ g = Some p ->
  exists p' v,
    gridPattern_ (snd (update scale g)) = Some p'
    /\ attributes p' !! "width"%string = Some v
    /\ attributes p' !! "height"%string = Some v
    /\ truthy_number v = true.
Proof.
  intros Hp. unfold update. simpl. rewrite Hp. simpl.
  eexists _, _. split; [reflexivity |]. unfold setAttribute; simpl.
  split; [by rewrite lookup_insert_ne, lookup_insert_eq by done |].
  split; [by rewrite lookup_insert_eq |].
  unfold safeSpacing. simpl.
  destruct (truthy_number (spacing_ g * scale)) eqn:Ht; [exact Ht | reflexivity].
Qed.

Lemma update_tile_truthy_witness :
  exists p' v,
    gridPattern_ (snd (update 0 sample_grid)) = Some p'
    /\ attributes p' !! "width"%string = Some v
    /\ attributes p' !! "height"%string = Some v
    /\ truthy_number v = true.
Proof. apply (update_tile_truthy sample_grid 0 sample_pattern). reflexivity. Defined.

(** X25: on a disposed grid [update], [moveTo] and [getPatternId] throw
    a TypeError; [update] has stored the new scale by then, [moveTo]
    has changed nothing; disposing again changes nothing. *)
Theorem disposed_grid (g : t) (s x y : float) (ie : bool) :
  update s (dispose g) = (Throw TypeError, set_scale_ s (dispose g))
  /\ moveTo ie x y (dispose g) = (Throw TypeError, dispose g)
  /\ getPatternId (dispose g) = Throw TypeError
  /\ dispose (dispose g) = dispose g.
Proof. repeat split. Qed.

(** X26: [moveTo(x, y)] writes [x] and [y] on the pattern and keeps the
    scale.  Without the forced redraw nothing else is written; with it
    (IE, Edge) the grid is the one [update] gives at the current scale,
    and [x] and [y] survive that update. *)
Theorem moveTo_spec (ie : bool) (x y : float) (g : t) (p : SVGElement) :
  gridPattern_ g = Some p ->
  exists g' p',
    moveTo ie x y g = (Return tt, g')
    /\ gridPattern_ g' = Some p'
    /\ attributes p' !! "x"%string = Some x
    /\ attributes p' !! "y"%string = Some y
    /\ scale_ g' = scale_ g
    /\ (ie = false ->
        g' = set_gridPattern_ (Some (setAttribute "y" y (setAttribute "x" x p))) g)
    /\ (ie = true ->
        g' = snd (update (scale_ g)
                    (set_gridPattern_ (Some (setAttribute "y" y (setAttribute "x" x p))) g))
        /\ attributes p' !! "width"%string = Some (safeSpacing g (scale_ g))).
Proof.
  intros Hp. unfold moveTo. rewrite Hp. destruct ie.
  - unfold update. simpl. eexists _, _. split; [reflexivity |].
    split; [reflexivity |]. unfold setAttribute; simpl.
    split; [by rewrite !lookup_insert_ne, lookup_insert_eq by done |].
    split; [by rewrite !lookup_insert_ne, lookup_insert_eq by done |].
    split; [done |]. split; [done |]. intros _. split; [done |].
    by rewrite lookup_insert_ne, lookup_insert_eq by done.
  - eexists _, _. split; [reflexivity |]. simpl.
    split; [reflexivity |]. unfold setAttribute; simpl.
    split; [by rewrite lookup_insert_ne, lookup_insert_eq by done |].
    split; [by rewrite lookup_insert_eq |]. done.
Qed.

Lemma moveTo_spec_witness :
  exists g' p',
    moveTo true 3 4 sample_grid = (Return tt, g')
    /\ gridPattern_ g' = Some p'
    /\ attributes p' !! "x"%string = Some 3%float
    /\ attributes p' !! "y"%string = Some 4%float
    /\ scale_ g' = scale_ sample_grid
    /\ attributes p' !! "width"%string = Some 10%float.
Proof.
  destruct (moveTo_spec true 3 4 sample_grid sample_pattern eq_refl)
    as (g' & p' & Hrun & Hp & Hx & Hy & Hs & _ & Hie).
  exists g', p'. repeat split; try done. exact (proj2 (Hie eq_refl)).
Defined.

(** X27: the pattern [createDom] builds always has a first line, and
    has a second one exactly when the length and the spacing are above
    0 and the length is above 1; so a grid constructed on it always has
    [line1_], has [line2_] in that case only, starts at scale 1 and
    answers [getPatternId] with the id [createDom] gave. *)
Theorem createDom_lines (rnd : string) (o : GridDom.Options) :
  let two := PrimFloat.ltb 0 (GridDom.length o) && PrimFloat.ltb 0 (GridDom.spacing o)
             && PrimFloat.ltb 1 (GridDom.length o) in
  let g := GridDom.new (GridDom.createDom rnd o) o in
  length (GridDom.children (GridDom.createDom rnd o)) = (if two then 2 else 1)%nat
  /\ line1_ g <> None
  /\ (line2_ g <> None <-> two = true)
  /\ scale_ g = 1%float
  /\ getSpacing g = GridDom.spacing o /\ shouldSnap g = GridDom.snap o
  /\ getPatternId g = Return ("blocklyGridPattern" ++ rnd)%string.
Proof.
  unfold GridDom.new, GridDom.createDom. simpl.
  destruct (PrimFloat.ltb 0 (GridDom.length o)),
           (PrimFloat.ltb 0 (GridDom.spacing o)),
           (PrimFloat.ltb 1 (GridDom.length o)); simpl;
    repeat split; try done; intros H; try done; by destruct H.
Qed.

End GridExtra.
